(** * A first-fit arena allocator: shallow embedding of [main.c]

    The program keeps one static buffer [memory] of [MEMORY_SIZE] bytes and a
    singly linked list of [Block] headers threaded through it.  Addresses are
    modelled as byte offsets from the start of [memory]; the null pointer is
    [None].  The buffer is recorded as a finite map from the offset of a
    header to the header stored there; an offset the program never wrote
    reads as the all-zero header, as static storage does.  A header is read
    and written as a whole record at its offset: the bytes of the payloads
    are not recorded, and a header that the list no longer reaches stays in
    the map until [splitBlock] or [initialize] writes a header at its offset
    again.  The map stands for the bytes of the buffer as long as the
    headers that are read and written do not overlap: the headers of the
    blocks of a list that tiles the arena, and the header that [splitBlock]
    writes inside the payload of the chosen block.  The theorems are stated
    for such lists and for pointers that address their blocks.  Loops over
    the linked list take a bound on the number of iterations ([fuel]);
    [None] means that the bound was reached. *)

From Stdlib Require Import ZArith Lia List.
From stdpp Require Import base option list gmap strings.

Local Open Scope Z_scope.

(** ** Data *)

(** [#define MEMORY_SIZE 102400] *)
Definition MEMORY_SIZE : Z := 102400.

(** [struct Block { int size; int free; struct Block* next; }] *)
Record Block : Type := mkBlock {
  blk_size : Z;
  blk_free : Z;
  blk_next : option Z
}.

Definition zero_block : Block := mkBlock 0 0 None.

(** The globals [memory] and [freeList]. *)
Record state : Type := mkState {
  memory : gmap Z Block;
  freeList : option Z
}.

(** Static storage before the first call. *)
Definition fresh : state := mkState ∅ None.

(** Conversion of an integer value to [int] (32 bits, two's complement). *)
Definition to_int (z : Z) : Z := (z + 2 ^ 31) mod 2 ^ 32 - 2 ^ 31.

(** Reading and writing the fields of the header at an offset. *)
Definition load (m : gmap Z Block) (p : Z) : Block := default zero_block (m !! p).

Definition store_size (m : gmap Z Block) (p : Z) (v : Z) : gmap Z Block :=
  <[p := mkBlock v (blk_free (load m p)) (blk_next (load m p))]> m.

Definition store_free (m : gmap Z Block) (p : Z) (v : Z) : gmap Z Block :=
  <[p := mkBlock (blk_size (load m p)) v (blk_next (load m p))]> m.

Definition store_next (m : gmap Z Block) (p : Z) (v : option Z) : gmap Z Block :=
  <[p := mkBlock (blk_size (load m p)) (blk_free (load m p)) v]> m.

(** The C truth value of the [free] field. *)
Definition is_free (b : Block) : bool := negb (blk_free b =? 0).

(** ** Operations *)

Section Allocator.

(** [sizeof(Block)], fixed by the target ABI (16 with 4-byte [int] and 8-byte
    pointers). *)
Variable sizeof_Block : Z.

(** [static void initialize()] *)
Definition initialize (st : state) : state :=
  let m1 := store_size (memory st) 0 (to_int (MEMORY_SIZE - sizeof_Block)) in
  let m2 := store_free m1 0 1 in
  let m3 := store_next m2 0 None in
  mkState m3 (Some 0).

(** [static void splitBlock(Block* fittingBlock, int size)] *)
Definition splitBlock (m : gmap Z Block) (fittingBlock : Z) (sz : Z) : gmap Z Block :=
  let newBlock := fittingBlock + sizeof_Block + sz in
  let m1 := store_size m newBlock
              (to_int (blk_size (load m fittingBlock) - sz - sizeof_Block)) in
  let m2 := store_free m1 newBlock 1 in
  let m3 := store_next m2 newBlock (blk_next (load m2 fittingBlock)) in
  let m4 := store_size m3 fittingBlock sz in
  let m5 := store_free m4 fittingBlock 0 in
  store_next m5 fittingBlock (Some newBlock).

(** The test [current->free && current->size >= size] of the search. *)
Definition fits (sz : Z) (b : Block) : bool := is_free b && (sz <=? blk_size b).

(** The [while (current != NULL)] loop of [allocate]: the result is the buffer
    and the returned pointer. *)
Fixpoint allocate_loop (fuel : nat) (m : gmap Z Block) (current : option Z) (sz : Z)
  : option (gmap Z Block * option Z) :=
  match current with
  | None => Some (m, None)
  | Some c =>
      match fuel with
      | O => None
      | S fuel' =>
          if fits sz (load m c) then
            if blk_size (load m c) >? sz + to_int sizeof_Block
            then Some (splitBlock m c sz, Some (c + sizeof_Block))
            else Some (store_free m c 0, Some (c + sizeof_Block))
          else allocate_loop fuel' m (blk_next (load m c)) sz
      end
  end.

(** [int* allocate(int size)] *)
Definition allocate (fuel : nat) (st : state) (sz : Z) : option (state * option Z) :=
  if (sz <=? 0) || (sz >? MEMORY_SIZE) then Some (st, None)
  else
    let st1 := match freeList st with None => initialize st | Some _ => st end in
    match allocate_loop fuel (memory st1) (freeList st1) sz with
    | Some (m', r) => Some (mkState m' (freeList st1), r)
    | None => None
    end.

(** The two stores of the merging branch of [mergeFreeBlocks]: the block at
    [c] takes over the header and the payload of its successor [n] and is
    linked to the successor of [n]. *)
Definition absorb (m : gmap Z Block) (c n : Z) : gmap Z Block :=
  let m1 := store_size m c
              (to_int (blk_size (load m c) + (sizeof_Block + blk_size (load m n)))) in
  store_next m1 c (blk_next (load m1 n)).

(** The loop of [mergeFreeBlocks]; after a merge the cursor stays where it
    is. *)
Fixpoint mergeFreeBlocks_loop (fuel : nat) (m : gmap Z Block) (current : option Z)
  : option (gmap Z Block) :=
  match current with
  | None => Some m
  | Some c =>
      match blk_next (load m c) with
      | None => Some m
      | Some n =>
          match fuel with
          | O => None
          | S fuel' =>
              if is_free (load m c) && is_free (load m n)
              then mergeFreeBlocks_loop fuel' (absorb m c n) (Some c)
              else mergeFreeBlocks_loop fuel' m (Some n)
          end
      end
  end.

(** [static void mergeFreeBlocks()] *)
Definition mergeFreeBlocks (fuel : nat) (st : state) : option state :=
  match mergeFreeBlocks_loop fuel (memory st) (freeList st) with
  | Some m' => Some (mkState m' (freeList st))
  | None => None
  end.

(** [void deallocate(int* ptr)] *)
Definition deallocate (fuel : nat) (st : state) (ptr : option Z) : option state :=
  match ptr with
  | None => Some st
  | Some p =>
      let block := p - sizeof_Block in
      mergeFreeBlocks fuel (mkState (store_free (memory st) block 1) (freeList st))
  end.

(** A sequence of calls of the two public operations. *)
Inductive call : Type :=
  | Allocate (sz : Z)
  | Deallocate (ptr : option Z).

Definition step (fuel : nat) (st : state) (c : call) : option state :=
  match c with
  | Allocate sz => fst <$> allocate fuel st sz
  | Deallocate ptr => deallocate fuel st ptr
  end.

Fixpoint run (fuel : nat) (st : state) (cs : list call) : option state :=
  match cs with
  | [] => Some st
  | c :: cs' =>
      match step fuel st c with
      | Some st' => run fuel st' cs'
      | None => None
      end
  end.

(** ** The list of blocks reachable from a pointer *)

(** [is_seg m p l q]: following [next] from [p] visits the headers [l], each
    paired with its offset, and arrives at [q]. *)
Fixpoint is_seg (m : gmap Z Block) (p : option Z) (l : list (Z * Block)) (q : option Z)
  : Prop :=
  match l with
  | [] => p = q
  | (a, b) :: l' => p = Some a ∧ load m a = b ∧ is_seg m (blk_next b) l' q
  end.

Definition is_list (m : gmap Z Block) (p : option Z) (l : list (Z * Block)) : Prop :=
  is_seg m p l None.

(** The same walk as a function, for at most [fuel] blocks. *)
Fixpoint walk (fuel : nat) (m : gmap Z Block) (p : option Z) : option (list (Z * Block)) :=
  match p with
  | None => Some []
  | Some a =>
      match fuel with
      | O => None
      | S fuel' => cons (a, load m a) <$> walk fuel' m (blk_next (load m a))
      end
  end.

Definition offsets (l : list (Z * Block)) : list Z := map fst l.

(** The list of blocks after a sequence of calls on the untouched arena. *)
Definition blocks_after (fuel : nat) (cs : list call) : option (list (Z * Block)) :=
  match run fuel fresh cs with
  | Some st => walk fuel (memory st) (freeList st)
  | None => None
  end.

(** [tiles lo l hi]: the blocks of [l], header and payload, lie end to end
    from offset [lo] to offset [hi]. *)
Fixpoint tiles (lo : Z) (l : list (Z * Block)) (hi : Z) : Prop :=
  match l with
  | [] => lo = hi
  | (a, b) :: l' =>
      a = lo ∧ 0 <= blk_size b ∧ tiles (lo + sizeof_Block + blk_size b) l' hi
  end.

(** The blocks cover the arena. *)
Definition covers (l : list (Z * Block)) : Prop := tiles 0 l MEMORY_SIZE.

(** The bytes of the block at offset [a]: header, then payload. *)
Definition in_block (x : Z) (ab : Z * Block) : Prop :=
  fst ab <= x < fst ab + sizeof_Block + blk_size (snd ab).

(** Every byte of the arena lies in exactly one block and no block leaves
    the arena. *)
Definition partitions (l : list (Z * Block)) : Prop :=
  (∀ ab, In ab l → 0 <= fst ab ∧ fst ab + sizeof_Block + blk_size (snd ab) <= MEMORY_SIZE)
  ∧ (∀ x, 0 <= x < MEMORY_SIZE →
        ∃ ab, In ab l ∧ in_block x ab ∧ ∀ ab', In ab' l → in_block x ab' → ab' = ab).

(** No two neighbours of the list are both free. *)
Fixpoint no_adjacent_free (l : list (Z * Block)) : Prop :=
  match l with
  | [] => True
  | (_, b) :: l' =>
      match l' with
      | [] => True
      | (_, b') :: _ => (is_free b && is_free b' = false) ∧ no_adjacent_free l'
      end
  end.

(** What the coalescing pass computes on the list of blocks, the cursor
    being at the block [b] at offset [a]. *)
Fixpoint merge_from (a : Z) (b : Block) (rest : list (Z * Block)) : list (Z * Block) :=
  match rest with
  | [] => [(a, b)]
  | (a', b') :: rest' =>
      if is_free b && is_free b' then
        merge_from a
          (mkBlock (to_int (blk_size b + (sizeof_Block + blk_size b')))
                   (blk_free b) (blk_next b'))
          rest'
      else (a, b) :: merge_from a' b' rest'
  end.

Definition merge_blocks (l : list (Z * Block)) : list (Z * Block) :=
  match l with
  | [] => []
  | (a, b) :: rest => merge_from a b rest
  end.

(** The blocks that stand in the place of the chosen block [b] at offset [a]
    once [allocate] has served a request of [sz] bytes from it. *)
Definition allocated_blocks (sz : Z) (a : Z) (b : Block) : list (Z * Block) :=
  if blk_size b >? sz + sizeof_Block then
    [ (a, mkBlock sz 0 (Some (a + sizeof_Block + sz)));
      (a + sizeof_Block + sz,
       mkBlock (blk_size b - sz - sizeof_Block) 1 (blk_next b)) ]
  else [ (a, mkBlock (blk_size b) 0 (blk_next b)) ].

(** No block of the list satisfies the search test. *)
Definition none_fits (sz : Z) (l : list (Z * Block)) : Prop :=
  Forall (λ ab, fits sz (snd ab) = false) l.

(** The list of blocks once the header at offset [x] has been marked free. *)
Definition mark_free (x : Z) (l : list (Z * Block)) : list (Z * Block) :=
  map (λ ab, if decide (fst ab = x)
             then (fst ab, mkBlock (blk_size (snd ab)) 1 (blk_next (snd ab)))
             else ab) l.

(** The invariant of the allocator once its list exists: the blocks
    reachable from [freeList] are [l], and they cover the arena. *)
Definition inv (st : state) (l : list (Z * Block)) : Prop :=
  is_list (memory st) (freeList st) l ∧ covers l.

(** A call that gets past the size check of [allocate] (and so creates the
    list when there is none). *)
Definition initializes (c : call) : bool :=
  match c with
  | Allocate sz => (0 <? sz) && (sz <=? MEMORY_SIZE)
  | Deallocate _ => false
  end.

(** What is known of the state after [k] calls: [i] tells whether one of
    them got past the size check of [allocate]. *)
Definition run_inv (k : nat) (i : bool) (st : state) : Prop :=
  if i then ∃ l, inv st l ∧ (length l <= S k)%nat else freeList st = None.

(** ** The driver *)

(** [int main()]: the lines it prints, in order, and the value it returns.
    The three [if (mem[i]) printf(...)] come after the three requests. *)
Definition main (fuel : nat) : option (list string * Z) :=
  '(st, mem0) ← allocate fuel fresh 128;
  '(st, mem1) ← allocate fuel st 1024;
  '(st, mem2) ← allocate fuel st 4096;
  let out0 := match mem0 with Some _ => ["mem[0] allocated 128 bytes"] | None => [] end in
  let out1 := match mem1 with Some _ => ["mem[1] allocated 1024 bytes"] | None => [] end in
  let out2 := match mem2 with Some _ => ["mem[2] allocated 4096 bytes"] | None => [] end in
  st ← deallocate fuel st mem1;
  let out3 := ["mem[1] deallocated"] in
  '(st, mem1') ← allocate fuel st 512;
  let out4 := match mem1' with Some _ => ["mem[1] re-allocated 512 bytes"] | None => [] end in
  '(st, maxMem) ← allocate fuel st 100000;
  match maxMem with
  | Some _ =>
      st ← deallocate fuel st maxMem;
      Some (out0 ++ out1 ++ out2 ++ out3 ++ out4
              ++ ["Allocated nearly entire memory (100000 bytes)";
                  "Deallocated max memory"], 0)
  | None =>
      Some (out0 ++ out1 ++ out2 ++ out3 ++ out4
              ++ ["Failed to allocate max memory (100000 bytes)"], 0)
  end.

(** ** Further invariants of the list *)

(** The [free] fields hold the values the program stores in them. *)
Definition flags_ok (l : list (Z * Block)) : Prop :=
  Forall (λ ab, blk_free (snd ab) = 0 ∨ blk_free (snd ab) = 1) l.

(** The list exists, covers the arena, has no two free neighbours and only
    stored flags. *)
Definition good (st : state) (l : list (Z * Block)) : Prop :=
  inv st l ∧ no_adjacent_free l ∧ flags_ok l.

(** The contract of [deallocate]: its argument is null or the address that
    follows the header of a block of the list.  A sequence of calls respects
    it when each call does on the state it is made on.  (A store through any
    other pointer would land in bytes that the map of headers does not
    record.) *)
Definition contract_call (fuel : nat) (st : state) (c : call) : Prop :=
  match c with
  | Deallocate (Some p) =>
      match walk fuel (memory st) (freeList st) with
      | Some l => In (p - sizeof_Block) (offsets l)
      | None => False
      end
  | _ => True
  end.

Fixpoint respects (fuel : nat) (st : state) (cs : list call) : Prop :=
  match cs with
  | [] => True
  | c :: cs' =>
      contract_call fuel st c
      ∧ match step fuel st c with
        | Some st' => respects fuel st' cs'
        | None => False
        end
  end.

(** The same contract for one pointer, on a state whose blocks are [l]. *)
Definition contract_ptr (l : list (Z * Block)) (ptr : option Z) : Prop :=
  match ptr with
  | None => True
  | Some p => In (p - sizeof_Block) (offsets l)
  end.

(** The headers of the blocks of [l] do not overlap in the buffer. *)
Definition apart (l : list (Z * Block)) : Prop :=
  ∀ a a', In a (offsets l) → In a' (offsets l) → a ≠ a' →
          a + sizeof_Block <= a' ∨ a' + sizeof_Block <= a.

(** The number of calls of [allocate] in a sequence. *)
Fixpoint allocations (cs : list call) : nat :=
  match cs with
  | [] => 0
  | Allocate _ :: cs' => S (allocations cs')
  | Deallocate _ :: cs' => allocations cs'
  end.

(** What is known of the state after a sequence with [k] calls of
    [allocate]. *)
Definition reach_inv (k : nat) (i : bool) (st : state) : Prop :=
  if i then ∃ l, good st l ∧ (length l <= S k)%nat else freeList st = None.

(** ** Sample states, laid out for [sizeof_Block = 16] *)

(** The calls that [main] makes up to its last request; [mem[1]] is the
    address 160 that the second call returns. *)
Definition main_calls : list call :=
  [Allocate 128; Allocate 1024; Allocate 4096; Deallocate (Some 160);
   Allocate 512; Allocate 100000].

(** The list after the three requests of [main] and the release of the
    second block. *)
Definition scenario_3_blocks : list (Z * Block) :=
  [(0, mkBlock 128 0 (Some 144)); (144, mkBlock 1024 1 (Some 1184));
   (1184, mkBlock 4096 0 (Some 5296)); (5296, mkBlock 97088 1 None)].

Definition scenario_3 : state :=
  mkState (list_to_map scenario_3_blocks) (Some 0).

(** The same arena once 512 bytes have been taken from the block at 144. *)
Definition scenario_4 : state :=
  mkState (list_to_map
             [(0, mkBlock 128 0 (Some 144)); (144, mkBlock 512 0 (Some 672));
              (672, mkBlock 496 1 (Some 1184)); (1184, mkBlock 4096 0 (Some 5296));
              (5296, mkBlock 97088 1 None)])
          (Some 0).

(** The list after the three requests of [main]. *)
Definition scenario_2_blocks : list (Z * Block) :=
  [(0, mkBlock 128 0 (Some 144)); (144, mkBlock 1024 0 (Some 1184));
   (1184, mkBlock 4096 0 (Some 5296)); (5296, mkBlock 97088 1 None)].

Definition scenario_2 : state := mkState (list_to_map scenario_2_blocks) (Some 0).

(** The same with the first block released. *)
Definition left_free_blocks : list (Z * Block) :=
  [(0, mkBlock 128 1 (Some 144)); (144, mkBlock 1024 0 (Some 1184));
   (1184, mkBlock 4096 0 (Some 5296)); (5296, mkBlock 97088 1 None)].

Definition left_free : state := mkState (list_to_map left_free_blocks) (Some 0).

(** The same with the third block released too: it has taken the last block
    over. *)
Definition sides_free_blocks : list (Z * Block) :=
  [(0, mkBlock 128 1 (Some 144)); (144, mkBlock 1024 0 (Some 1184));
   (1184, mkBlock 101200 1 None)].

Definition sides_free : state := mkState (list_to_map sides_free_blocks) (Some 0).

(** [scenario_4] once 256 bytes have been taken from the block at 672. *)
Definition scenario_5 : state :=
  mkState (list_to_map
             [(0, mkBlock 128 0 (Some 144)); (144, mkBlock 512 0 (Some 672));
              (672, mkBlock 256 0 (Some 944)); (944, mkBlock 224 1 (Some 1184));
              (1184, mkBlock 4096 0 (Some 5296)); (5296, mkBlock 97088 1 None)])
          (Some 0).

(** ** Properties *)


(** *** Headers *)

Lemma to_int_small z : - 2 ^ 31 <= z < 2 ^ 31 → to_int z = z.
Proof.
  intros Hz. unfold to_int.
  rewrite Z.mod_small; lia.
Qed.

Lemma load_insert_eq (m : gmap Z Block) p b : load (<[p := b]> m) p = b.
Proof. unfold load. by rewrite lookup_insert_eq. Qed.

Lemma load_insert_ne (m : gmap Z Block) p q b :
  p ≠ q → load (<[p := b]> m) q = load m q.
Proof. intros Hne. unfold load. by rewrite lookup_insert_ne. Qed.

Lemma load_store_free_ne m p q v : p ≠ q → load (store_free m p v) q = load m q.
Proof. apply load_insert_ne. Qed.

Lemma load_store_free_eq m p v :
  load (store_free m p v) p = mkBlock (blk_size (load m p)) v (blk_next (load m p)).
Proof. apply load_insert_eq. Qed.

(** The six stores of [splitBlock] amount to two new headers. *)
Lemma load_splitBlock m c sz q :
  0 < sizeof_Block + sz →
  load (splitBlock m c sz) q =
    if decide (q = c) then mkBlock sz 0 (Some (c + sizeof_Block + sz))
    else if decide (q = c + sizeof_Block + sz)
         then mkBlock (to_int (blk_size (load m c) - sz - sizeof_Block)) 1
                      (blk_next (load m c))
         else load m q.
Proof.
  intros Hpos. unfold splitBlock, store_size, store_free, store_next.
  assert (Hne : c + sizeof_Block + sz ≠ c) by lia.
  repeat case_decide; subst;
    repeat (rewrite ?load_insert_eq; rewrite ?load_insert_ne by congruence);
    simpl; reflexivity.
Qed.

Lemma load_initialize st q :
  load (memory (initialize st)) q =
    if decide (q = 0) then mkBlock (to_int (MEMORY_SIZE - sizeof_Block)) 1 None
    else load (memory st) q.
Proof.
  unfold initialize, store_size, store_free, store_next. simpl.
  case_decide; subst;
    repeat (rewrite ?load_insert_eq; rewrite ?load_insert_ne by congruence);
    simpl; reflexivity.
Qed.

(** *** Lists of blocks *)

Lemma is_seg_ext m m' p l q :
  (∀ a, In a (offsets l) → load m' a = load m a) →
  is_seg m p l q → is_seg m' p l q.
Proof.
  revert p. induction l as [|[a b] l IH]; intros p Hext Hl; simpl in *; [done|].
  destruct Hl as (-> & Hb & Hl). split; [done|]. split.
  - rewrite Hext; auto.
  - apply IH; auto.
Qed.

Lemma is_seg_app m p l1 l2 q :
  is_seg m p (l1 ++ l2) q ↔ ∃ r, is_seg m p l1 r ∧ is_seg m r l2 q.
Proof.
  revert p. induction l1 as [|[a b] l1 IH]; intros p; simpl.
  - split; [eauto|]. by intros (r & -> & ?).
  - rewrite IH. split.
    + intros (-> & Hb & r & ? & ?). eauto 6.
    + intros (r & (-> & Hb & ?) & ?). eauto 6.
Qed.

Lemma is_seg_functional m p l1 l2 :
  is_list m p l1 → is_list m p l2 → l1 = l2.
Proof.
  unfold is_list. revert p l2.
  induction l1 as [|[a b] l1 IH]; intros p [|[a' b'] l2]; simpl; try done.
  - intros -> (? & _); done.
  - intros (-> & _) ?; done.
  - intros (-> & Hb & Hl1) (Ha & Hb' & Hl2).
    injection Ha as <-. subst b'. subst b. f_equal. eauto.
Qed.

(** A list that ends in the null pointer visits no header twice. *)
Lemma is_list_NoDup m p l : is_list m p l → NoDup (offsets l).
Proof.
  revert p. induction l as [|[a b] l IH]; intros p Hl; simpl.
  - constructor.
  - pose proof Hl as (-> & Hb & Hl'). constructor; [|by eapply IH].
    intros Hin%list_elem_of_In. apply in_map_iff in Hin as ([a' b'] & Ha & Hin).
    simpl in Ha. subst a'.
    apply in_split in Hin as (l1 & l2 & ->).
    apply is_seg_app in Hl' as (r & _ & Hsuf).
    pose proof Hsuf as (-> & _).
    assert (Heq : (a, b) :: l1 ++ (a, b') :: l2 = (a, b') :: l2).
    { eapply is_seg_functional; [exact Hl | exact Hsuf]. }
    apply (f_equal length) in Heq. simpl in Heq. rewrite length_app in Heq.
    simpl in Heq. lia.
Qed.

Lemma walk_is_list fuel m p l : walk fuel m p = Some l → is_list m p l.
Proof.
  unfold is_list. revert p l. induction fuel as [|fuel IH]; intros [a|] l; simpl; try done.
  - intros [= <-]. done.
  - destruct (walk fuel m (blk_next (load m a))) as [l'|] eqn:Hw; simpl; [|done].
    intros [= <-]. simpl. eauto.
  - intros [= <-]. done.
Qed.

Lemma is_list_walk fuel m p l :
  is_list m p l → (length l <= fuel)%nat → walk fuel m p = Some l.
Proof.
  unfold is_list. revert p fuel. induction l as [|[a b] l IH]; intros p fuel; simpl.
  - intros -> _. by destruct fuel.
  - intros (-> & Hb & Hl) Hlen. destruct fuel as [|fuel]; [lia|]. simpl.
    rewrite Hb. rewrite (IH _ fuel); [done|done|lia].
Qed.

(** *** The coalescing pass on a finite list *)

Lemma mergeFreeBlocks_loop_null fuel m : mergeFreeBlocks_loop fuel m None = Some m.
Proof. by destruct fuel. Qed.

Lemma mergeFreeBlocks_loop_blocks rest :
  ∀ a b m fuel,
    load m a = b → is_list m (blk_next b) rest → NoDup (a :: offsets rest) →
    (length rest <= fuel)%nat →
    ∃ m', mergeFreeBlocks_loop fuel m (Some a) = Some m'
          ∧ is_list m' (Some a) (merge_from a b rest)
          ∧ (∀ q, q ≠ a → ¬ In q (offsets rest) → load m' q = load m q).
Proof.
  unfold is_list.
  induction rest as [|[a' b'] rest IH]; intros a b m fuel Hb Hl Hnd Hfuel; simpl in *.
  - exists m. rewrite Hb, Hl. destruct fuel; simpl; rewrite Hb, Hl; auto.
  - destruct Hl as (Hnext & Hb' & Hl).
    destruct fuel as [|fuel]; [lia|]. simpl. rewrite Hb, Hnext, Hb'.
    apply NoDup_cons in Hnd as (Hna & Hnd).
    apply NoDup_cons in Hnd as (Hna' & Hnd).
    rewrite !list_elem_of_In in *. simpl in Hna.
    assert (Haa' : a ≠ a') by (intros ->; auto).
    assert (Hnar : ¬ In a (offsets rest)) by tauto.
    destruct (is_free b && is_free b') eqn:Hfree.
    + unfold absorb, store_next, store_size.
      rewrite load_insert_eq, (load_insert_ne _ a a') by done. simpl.
      rewrite Hb, Hb'.
      set (b2 := mkBlock _ (blk_free b) (blk_next b')).
      set (m2 := <[a := b2]> _).
      destruct (IH a b2 m2 fuel) as (m' & Hrun & Hl' & Hframe).
      * apply load_insert_eq.
      * eapply is_seg_ext; [|exact Hl]. intros q Hq. unfold m2.
        rewrite !load_insert_ne; [done| |]; intros ->; auto.
      * apply NoDup_cons. rewrite list_elem_of_In. auto.
      * lia.
      * exists m'. split; [done|]. split; [done|].
        intros q Hqa Hq. rewrite Hframe by tauto. unfold m2.
        by rewrite !load_insert_ne.
    + destruct (IH a' b' m fuel) as (m' & Hrun & Hl' & Hframe); auto.
      * apply NoDup_cons. rewrite list_elem_of_In. auto.
      * lia.
      * exists m'. split; [done|]. split.
        { split; [done|]. split; [|by rewrite Hnext].
          rewrite Hframe; [done| |]; auto. }
        intros q Hqa Hq. apply Hframe; [intros ->|]; tauto.
Qed.

Lemma merge_from_head a b rest :
  ∃ b0 tl, merge_from a b rest = (a, b0) :: tl ∧ blk_free b0 = blk_free b.
Proof.
  revert b. induction rest as [|[a' b'] rest IH]; intros b; simpl.
  - eauto.
  - destruct (is_free b && is_free b'); [|eauto].
    destruct (IH (mkBlock (to_int (blk_size b + (sizeof_Block + blk_size b')))
                          (blk_free b) (blk_next b'))) as (b0 & tl & -> & Hf).
    eauto.
Qed.

Lemma merge_from_no_adjacent_free a b rest : no_adjacent_free (merge_from a b rest).
Proof.
  revert a b. induction rest as [|[a' b'] rest IH]; intros a b; simpl; [done|].
  destruct (is_free b && is_free b') eqn:Hfree; [apply IH|].
  specialize (IH a' b').
  destruct (merge_from_head a' b' rest) as (b0 & tl & Heq & Hf).
  rewrite Heq in *. split; [|done].
  unfold is_free in *. by rewrite Hf.
Qed.

Lemma merge_from_length a b rest :
  (1 <= length (merge_from a b rest) <= S (length rest))%nat.
Proof.
  revert a b. induction rest as [|[a' b'] rest IH]; intros a b; simpl; [lia|].
  destruct (is_free b && is_free b'); simpl.
  - specialize (IH a (mkBlock (to_int (blk_size b + (sizeof_Block + blk_size b')))
                              (blk_free b) (blk_next b'))). lia.
  - specialize (IH a' b'). lia.
Qed.

(** A merge takes one block off the list. *)
Lemma absorb_shortens m p l1 a b a' b' rest :
  is_list m p (l1 ++ (a, b) :: (a', b') :: rest) →
  is_list (absorb m a a') p
    (l1 ++ (a, mkBlock (to_int (blk_size b + (sizeof_Block + blk_size b')))
                       (blk_free b) (blk_next b')) :: rest).
Proof.
  intros Hl. pose proof (is_list_NoDup _ _ _ Hl) as Hnd.
  unfold offsets in Hnd. rewrite map_app in Hnd. simpl in Hnd.
  apply NoDup_app in Hnd as (_ & Hnd1 & Hnd2).
  apply NoDup_cons in Hnd2 as (Hna & Hnd2).
  assert (Haa' : a ≠ a').
  { intros ->. apply Hna. apply list_elem_of_In. simpl. auto. }
  unfold is_list in *. apply is_seg_app in Hl as (r & Hl1 & Hl2).
  simpl in Hl2. destruct Hl2 as (-> & Hb & Hnext & Hb' & Hrest).
  assert (Hframe : ∀ q, q ≠ a → load (absorb m a a') q = load m q).
  { intros q Hq. unfold absorb, store_next, store_size.
    by rewrite !load_insert_ne. }
  apply is_seg_app. exists (Some a). split.
  - eapply is_seg_ext; [|exact Hl1]. intros q Hq. apply Hframe. intros ->.
    apply (Hnd1 a); apply list_elem_of_In; simpl; auto.
  - simpl. split; [done|]. split.
    + unfold absorb, store_next, store_size.
      rewrite load_insert_eq, (load_insert_ne _ a a') by done. simpl.
      by rewrite load_insert_eq, Hb, Hb'.
    + eapply is_seg_ext; [|exact Hrest]. intros q Hq. apply Hframe. intros ->.
      apply Hna. apply list_elem_of_In. simpl. auto.
Qed.

(** *** Marking a block free *)

Lemma offsets_mark_free x l : offsets (mark_free x l) = offsets l.
Proof.
  unfold offsets, mark_free. rewrite map_map. apply map_ext.
  intros [a b]. simpl. by case_decide.
Qed.

Lemma length_mark_free x l : length (mark_free x l) = length l.
Proof. apply length_map. Qed.

Lemma is_seg_mark_free m x p l q :
  is_seg m p l q → is_seg (store_free m x 1) p (mark_free x l) q.
Proof.
  revert p. induction l as [|[a b] l IH]; intros p; simpl; [done|].
  intros (-> & Hb & Hl). case_decide as Hx; simpl.
  - subst x. split; [done|]. rewrite load_store_free_eq, Hb. auto.
  - split; [done|]. rewrite load_store_free_ne by done. auto.
Qed.

(** [deallocate] of a non-null pointer on a state with a finite list. *)
Lemma deallocate_blocks st l p fuel :
  is_list (memory st) (freeList st) l → (length l <= fuel)%nat →
  ∃ st', deallocate fuel st (Some p) = Some st'
         ∧ freeList st' = freeList st
         ∧ is_list (memory st') (freeList st')
                   (merge_blocks (mark_free (p - sizeof_Block) l)).
Proof.
  intros Hl Hfuel. unfold deallocate, mergeFreeBlocks. simpl.
  apply (is_seg_mark_free _ (p - sizeof_Block)) in Hl.
  pose proof (is_list_NoDup _ _ _ Hl) as Hnd.
  pose proof (length_mark_free (p - sizeof_Block) l) as Hlen.
  destruct (mark_free (p - sizeof_Block) l) as [|[a b] rest]; simpl in *.
  - rewrite Hl, mergeFreeBlocks_loop_null. eexists. split; [done|]. done.
  - destruct Hl as (Hhd & Hb & Hl). rewrite Hhd.
    destruct (mergeFreeBlocks_loop_blocks rest a b _ fuel Hb Hl Hnd)
      as (m' & -> & Hl' & _); [lia|].
    eexists. split; [done|]. done.
Qed.

(** *** The size of a header

    From here on [sizeof_Block] is positive and smaller than the arena. *)

Hypothesis sizeof_Block_range : 0 < sizeof_Block < MEMORY_SIZE.

Lemma to_int_sizeof : to_int sizeof_Block = sizeof_Block.
Proof. apply to_int_small. unfold MEMORY_SIZE in *. lia. Qed.

(** *** Tiling *)

Lemma tiles_app lo l1 l2 hi :
  tiles lo (l1 ++ l2) hi ↔ ∃ mid, tiles lo l1 mid ∧ tiles mid l2 hi.
Proof.
  revert lo. induction l1 as [|[a b] l1 IH]; intros lo; simpl.
  - split; [eauto|]. by intros (mid & -> & ?).
  - rewrite IH. split.
    + intros (-> & Hb & mid & ? & ?). eauto 6.
    + intros (mid & (-> & Hb & ?) & ?). eauto 6.
Qed.

Lemma tiles_bounds lo l hi :
  tiles lo l hi →
  lo <= hi ∧
  ∀ ab, In ab l →
    lo <= fst ab ∧ 0 <= blk_size (snd ab)
    ∧ fst ab + sizeof_Block + blk_size (snd ab) <= hi.
Proof.
  revert lo. induction l as [|[a b] l IH]; intros lo; simpl.
  - intros ->. split; [lia|tauto].
  - intros (-> & Hb & Ht). destruct (IH _ Ht) as (Hle & Hin). split; [lia|].
    intros ab [<-|Hab]; simpl; [lia|]. specialize (Hin _ Hab). lia.
Qed.

Lemma tiles_offsets lo l hi a :
  tiles lo l hi → In a (offsets l) → lo <= a < hi.
Proof.
  intros Ht ([a' b] & <- & Hin)%in_map_iff.
  destruct (tiles_bounds _ _ _ Ht) as (_ & Hb). specialize (Hb _ Hin).
  simpl in *. lia.
Qed.

Lemma tiles_unique lo l hi x ab ab' :
  tiles lo l hi → In ab l → In ab' l → in_block x ab → in_block x ab' → ab' = ab.
Proof.
  unfold in_block. revert lo. induction l as [|[a b] l IH]; intros lo Ht Hin Hin' Hx Hx'; [done|].
  simpl in Ht. destruct Ht as (-> & Hb & Ht).
  destruct (tiles_bounds _ _ _ Ht) as (_ & Hbd).
  destruct Hin as [<-|Hin], Hin' as [<-|Hin']; simpl in *.
  - done.
  - specialize (Hbd _ Hin'). lia.
  - specialize (Hbd _ Hin). lia.
  - by apply (IH _ Ht).
Qed.

Lemma tiles_exists lo l hi x :
  tiles lo l hi → lo <= x < hi → ∃ ab, In ab l ∧ in_block x ab.
Proof.
  unfold in_block. revert lo. induction l as [|[a b] l IH]; intros lo Ht Hx; simpl in Ht.
  - lia.
  - destruct Ht as (-> & Hb & Ht).
    destruct (decide (x < lo + sizeof_Block + blk_size b)) as [Hlt|Hge].
    + exists (lo, b). simpl. split; [auto|lia].
    + destruct (IH _ Ht) as (ab & Hin & Hab); [lia|].
      exists ab. simpl. auto.
Qed.

(** A tiling of the arena is a partition of its bytes. *)
Lemma covers_partitions l : covers l → partitions l.
Proof.
  intros Hc. split.
  - intros ab Hin. destruct (tiles_bounds _ _ _ Hc) as (_ & Hb).
    specialize (Hb _ Hin). lia.
  - intros x Hx. destruct (tiles_exists _ _ _ x Hc Hx) as (ab & Hin & Hab).
    exists ab. split; [done|]. split; [done|].
    intros ab' Hin' Hab'. eapply tiles_unique; eauto.
Qed.

(** *** The search loop of [allocate] *)

Lemma allocate_loop_skip m p l1 q sz fuel :
  is_seg m p l1 q → none_fits sz l1 →
  allocate_loop (length l1 + fuel) m p sz = allocate_loop fuel m q sz.
Proof.
  revert p. induction l1 as [|[a b] l1 IH]; intros p Hseg Hno; simpl in *.
  - by subst.
  - destruct Hseg as (-> & Hb & Hseg). inversion Hno as [|? ? Hab Hno']; subst.
    simpl in Hab. rewrite Hab. by apply IH.
Qed.

Lemma allocate_loop_none m p l sz fuel :
  is_list m p l → none_fits sz l → (length l <= fuel)%nat →
  allocate_loop fuel m p sz = Some (m, None).
Proof.
  intros Hl Hno Hfuel.
  replace fuel with (length l + (fuel - length l))%nat by lia.
  rewrite (allocate_loop_skip _ _ _ _ _ _ Hl Hno). by destruct (fuel - length l)%nat.
Qed.

Lemma allocate_loop_found m p l1 a sz fuel :
  is_seg m p l1 (Some a) → none_fits sz l1 → fits sz (load m a) = true →
  (length l1 < fuel)%nat →
  allocate_loop fuel m p sz =
    Some (if blk_size (load m a) >? sz + sizeof_Block
          then splitBlock m a sz else store_free m a 0,
          Some (a + sizeof_Block)).
Proof.
  intros Hseg Hno Hfit Hfuel.
  replace fuel with (length l1 + S (fuel - length l1 - 1))%nat by lia.
  rewrite (allocate_loop_skip _ _ _ _ _ _ Hseg Hno). simpl.
  rewrite Hfit, to_int_sizeof. by destruct (_ >? _).
Qed.

(** Either no block fits, or there is a first one that does. *)
Lemma first_fit_cases sz (l : list (Z * Block)) :
  none_fits sz l ∨
  ∃ l1 a b l2, l = l1 ++ (a, b) :: l2 ∧ none_fits sz l1 ∧ fits sz b = true.
Proof.
  induction l as [|[a b] l IH].
  - left. constructor.
  - destruct (fits sz b) eqn:Hfit.
    + right. exists [], a, b, l. repeat split; [constructor|done].
    + destruct IH as [Hno|(l1 & a' & b' & l2 & -> & Hno & Hfit')].
      * left. by constructor.
      * right. exists ((a, b) :: l1), a', b', l2. repeat split; [|done].
        by constructor.
Qed.

(** The first fitting block is unique. *)
Lemma first_fit_unique sz (l1 l1' l2 l2' : list (Z * Block)) a a' b b' :
  l1 ++ (a, b) :: l2 = l1' ++ (a', b') :: l2' →
  none_fits sz l1 → fits sz b = true → none_fits sz l1' → fits sz b' = true →
  l1 = l1' ∧ a = a' ∧ b = b' ∧ l2 = l2'.
Proof.
  revert l1'. induction l1 as [|x l1 IH]; intros [|x' l1'] Heq Hno Hfit Hno' Hfit';
    simpl in Heq.
  - by injection Heq as -> -> ->.
  - injection Heq as <- _. inversion Hno' as [|? ? Hx _]; subst. simpl in Hx. congruence.
  - injection Heq as -> _. inversion Hno as [|? ? Hx _]; subst. simpl in Hx. congruence.
  - injection Heq as -> Heq. inversion Hno; inversion Hno'; subst.
    destruct (IH l1' Heq) as (-> & -> & -> & ->); auto.
Qed.

(** The effect of a successful search on a tiled list of blocks. *)
Lemma allocate_loop_blocks m p l1 a b l2 lo hi sz fuel :
  is_list m p (l1 ++ (a, b) :: l2) →
  tiles lo (l1 ++ (a, b) :: l2) hi → 0 <= lo → hi <= MEMORY_SIZE →
  0 < sz →
  none_fits sz l1 → fits sz b = true → (length l1 < fuel)%nat →
  ∃ m', allocate_loop fuel m p sz = Some (m', Some (a + sizeof_Block))
        ∧ is_list m' p (l1 ++ allocated_blocks sz a b ++ l2)
        ∧ tiles lo (l1 ++ allocated_blocks sz a b ++ l2) hi
        ∧ (∀ q, q ≠ a → (q ≠ a + sizeof_Block + sz ∨ blk_size b <= sz + sizeof_Block) →
                load m' q = load m q).
Proof.
  intros Hl Ht Hlo Hhi Hsz Hno Hfit Hfuel.
  apply is_seg_app in Hl as (r & Hl1 & Hl2). simpl in Hl2.
  destruct Hl2 as (-> & Hb & Hl2).
  apply tiles_app in Ht as (mid & Ht1 & Ht2). simpl in Ht2.
  destruct Ht2 as (-> & Hb0 & Ht2).
  pose proof (tiles_bounds _ _ _ Ht1) as (Hlomid & _).
  pose proof (tiles_bounds _ _ _ Ht2) as (Hmidhi & _).
  assert (Hoff1 : ∀ q, In q (offsets l1) → q < mid).
  { intros q Hq. pose proof (tiles_offsets _ _ _ _ Ht1 Hq). lia. }
  assert (Hoff2 : ∀ q, In q (offsets l2) → mid + sizeof_Block + blk_size b <= q).
  { intros q Hq. pose proof (tiles_offsets _ _ _ _ Ht2 Hq). lia. }
  eexists. split.
  { apply (allocate_loop_found _ _ l1); [exact Hl1|done| by rewrite Hb|done]. }
  rewrite Hb. unfold allocated_blocks.
  unfold fits in Hfit. apply andb_prop in Hfit as (_ & Hge%Z.leb_le).
  destruct (blk_size b >? sz + sizeof_Block) eqn:Hsplit.
  - apply Z.gtb_lt in Hsplit.
    assert (Hld : ∀ q, q ≠ mid → q ≠ mid + sizeof_Block + sz →
                       load (splitBlock m mid sz) q = load m q).
    { intros q Hq1 Hq2. rewrite load_splitBlock by lia.
      rewrite decide_False by done. by rewrite decide_False by done. }
    split; [|split].
    + apply is_seg_app. exists (Some mid). split.
      * eapply is_seg_ext; [|exact Hl1]. intros q Hq. specialize (Hoff1 _ Hq).
        apply Hld; lia.
      * simpl. split; [done|]. split.
        { rewrite load_splitBlock by lia. by rewrite decide_True by done. }
        split; [done|]. split.
        { rewrite load_splitBlock by lia. rewrite decide_False by lia.
          rewrite decide_True by done. rewrite Hb.
          rewrite to_int_small; [done|]. unfold MEMORY_SIZE in *. lia. }
        simpl. eapply is_seg_ext; [|exact Hl2]. intros q Hq. specialize (Hoff2 _ Hq).
        apply Hld; lia.
    + apply tiles_app. exists mid. split; [done|]. simpl.
      repeat split; try lia.
      replace (mid + sizeof_Block + sz + sizeof_Block + (blk_size b - sz - sizeof_Block))
        with (mid + sizeof_Block + blk_size b) by lia.
      done.
    + intros q Hq1 [Hq2|Hq2]; [by apply Hld|lia].
  - rewrite Z.gtb_ltb in Hsplit. apply Z.ltb_ge in Hsplit.
    split; [|split].
    + apply is_seg_app. exists (Some mid). split.
      * eapply is_seg_ext; [|exact Hl1]. intros q Hq. specialize (Hoff1 _ Hq).
        apply load_store_free_ne. lia.
      * simpl. split; [done|]. split.
        { rewrite load_store_free_eq. by rewrite Hb. }
        eapply is_seg_ext; [|exact Hl2]. intros q Hq. specialize (Hoff2 _ Hq).
        apply load_store_free_ne. lia.
    + apply tiles_app. exists mid. split; [done|]. simpl. done.
    + intros q Hq1 _. by apply load_store_free_ne.
Qed.

(** *** The coalescing pass and the tiling *)

Lemma merge_from_tiles rest :
  ∀ lo a b hi,
    0 <= lo → hi <= MEMORY_SIZE →
    tiles lo ((a, b) :: rest) hi → tiles lo (merge_from a b rest) hi.
Proof.
  induction rest as [|[a' b'] rest IH]; intros lo a b hi Hlo Hhi Ht; [done|].
  simpl in Ht. destruct Ht as (-> & Hb & -> & Hb' & Ht).
  pose proof (tiles_bounds _ _ _ Ht) as (Hle & _).
  simpl. destruct (is_free b && is_free b').
  - apply IH; [done|done|]. simpl.
    rewrite to_int_small by (unfold MEMORY_SIZE in *; lia).
    split; [done|]. split; [lia|].
    replace (lo + sizeof_Block + (blk_size b + (sizeof_Block + blk_size b')))
      with (lo + sizeof_Block + blk_size b + sizeof_Block + blk_size b') by lia.
    done.
  - simpl. split; [done|]. split; [done|]. apply IH; [lia|done|]. simpl. auto.
Qed.

Lemma tiles_mark_free x lo l hi : tiles lo l hi → tiles lo (mark_free x l) hi.
Proof.
  revert lo. induction l as [|[a b] l IH]; intros lo; simpl; [done|].
  intros (-> & Hb & Ht). case_decide; simpl; auto.
Qed.

(** *** The operations on states *)

Lemma size_check_false sz :
  0 < sz <= MEMORY_SIZE → (sz <=? 0) || (sz >? MEMORY_SIZE) = false.
Proof.
  intros Hsz. apply orb_false_iff. rewrite Z.gtb_ltb. split; [apply Z.leb_gt|apply Z.ltb_ge]; lia.
Qed.

Lemma size_check_true sz :
  sz <= 0 ∨ MEMORY_SIZE < sz → (sz <=? 0) || (sz >? MEMORY_SIZE) = true.
Proof.
  intros Hsz. apply orb_true_iff. rewrite Z.gtb_ltb, Z.leb_le, Z.ltb_lt. done.
Qed.

Lemma allocate_invalid st sz fuel :
  sz <= 0 ∨ MEMORY_SIZE < sz → allocate fuel st sz = Some (st, None).
Proof. intros Hsz. unfold allocate. by rewrite size_check_true. Qed.

Lemma allocate_initialized st sz fuel :
  0 < sz <= MEMORY_SIZE → freeList st ≠ None →
  allocate fuel st sz =
    match allocate_loop fuel (memory st) (freeList st) sz with
    | Some (m', r) => Some (mkState m' (freeList st), r)
    | None => None
    end.
Proof.
  intros Hsz Hhd. unfold allocate. rewrite size_check_false by done.
  destruct (freeList st) eqn:E; [|congruence].
  cbv zeta. by rewrite E.
Qed.

Lemma allocate_lazy st sz fuel :
  0 < sz <= MEMORY_SIZE → freeList st = None →
  allocate fuel st sz = allocate fuel (initialize st) sz.
Proof.
  intros Hsz Hhd. unfold allocate. rewrite size_check_false by done.
  by rewrite Hhd.
Qed.

Lemma size_cases sz : (sz <= 0 ∨ MEMORY_SIZE < sz) ∨ 0 < sz <= MEMORY_SIZE.
Proof. lia. Qed.

Lemma initializes_true sz : 0 < sz <= MEMORY_SIZE → initializes (Allocate sz) = true.
Proof. intros Hsz. simpl. apply andb_true_iff. rewrite Z.ltb_lt, Z.leb_le. lia. Qed.

Lemma initializes_false sz :
  sz <= 0 ∨ MEMORY_SIZE < sz → initializes (Allocate sz) = false.
Proof. intros Hsz. simpl. apply andb_false_iff. rewrite Z.ltb_ge, Z.leb_gt. lia. Qed.

Lemma initialize_inv st :
  inv (initialize st) [(0, mkBlock (MEMORY_SIZE - sizeof_Block) 1 None)].
Proof.
  split.
  - unfold is_list, is_seg. split; [done|]. split; [|done].
    rewrite (load_initialize st 0), decide_True by done.
    rewrite to_int_small; [done|].
    unfold MEMORY_SIZE in *. lia.
  - unfold covers. simpl. split; [done|]. split; lia.
Qed.

Lemma inv_head st l : inv st l → freeList st = Some 0.
Proof.
  intros [Hl Hc]. destruct l as [|[a b] l].
  - unfold covers in Hc. simpl in Hc. unfold MEMORY_SIZE in Hc. lia.
  - destruct Hl as (-> & _). destruct Hc as (-> & _). done.
Qed.

(** [allocate] on a state whose list exists. *)
Lemma allocate_inv st l sz fuel :
  inv st l → (length l <= fuel)%nat →
  ∃ st' r l', allocate fuel st sz = Some (st', r) ∧ inv st' l'
              ∧ (length l' <= S (length l))%nat.
Proof.
  intros Hinv Hfuel. pose proof (inv_head _ _ Hinv) as Hhd.
  destruct Hinv as [Hl Hc].
  destruct (size_cases sz) as [Hbad|Hsz].
  { rewrite allocate_invalid by done. exists st, None, l. repeat split; auto. }
  rewrite allocate_initialized by (done || congruence).
  destruct (first_fit_cases sz l) as [Hno|(l1 & a & b & l2 & -> & Hno & Hfit)].
  - rewrite (allocate_loop_none _ _ l) by done.
    exists (mkState (memory st) (freeList st)), None, l. repeat split; auto.
  - destruct (allocate_loop_blocks (memory st) (freeList st) l1 a b l2 0 MEMORY_SIZE sz fuel)
      as (m' & -> & Hl' & Hc' & _); try done; try lia.
    { rewrite length_app in Hfuel. simpl in Hfuel. lia. }
    eexists _, _, _. split; [done|]. split; [split; [exact Hl'|exact Hc']|].
    rewrite !length_app. simpl. unfold allocated_blocks.
    destruct (_ >? _); simpl; lia.
Qed.

(** [allocate] on a state without a list. *)
Lemma allocate_uninitialized st sz fuel :
  freeList st = None → (1 <= fuel)%nat →
  ∃ st' r, allocate fuel st sz = Some (st', r)
           ∧ if initializes (Allocate sz)
             then ∃ l', inv st' l' ∧ (length l' <= 2)%nat
             else st' = st.
Proof.
  intros Hnone Hfuel.
  destruct (size_cases sz) as [Hbad|Hsz].
  { rewrite allocate_invalid, initializes_false by done. eauto. }
  rewrite allocate_lazy, initializes_true by done.
  destruct (allocate_inv (initialize st) _ sz fuel (initialize_inv st))
    as (st' & r & l' & Hrun & Hinv' & Hlen); [simpl; lia|].
  simpl in Hlen. eauto 6.
Qed.

Lemma deallocate_inv st l ptr fuel :
  inv st l → (length l <= fuel)%nat →
  ∃ st' l', deallocate fuel st ptr = Some st' ∧ inv st' l'
            ∧ (length l' <= length l)%nat.
Proof.
  intros [Hl Hc] Hfuel. destruct ptr as [p|].
  - destruct (deallocate_blocks st l p fuel Hl Hfuel) as (st' & Hrun & Hhd & Hl').
    exists st', (merge_blocks (mark_free (p - sizeof_Block) l)).
    split; [done|].
    apply (tiles_mark_free (p - sizeof_Block)) in Hc.
    pose proof (length_mark_free (p - sizeof_Block) l) as Hlen.
    destruct (mark_free (p - sizeof_Block) l) as [|[a b] rest]; simpl in *.
    + split; [by split|lia].
    + split; [split; [done|]|].
      * apply merge_from_tiles; [lia|lia|done].
      * pose proof (merge_from_length a b rest). lia.
  - exists st, l. simpl. repeat split; auto.
Qed.

Lemma is_list_nonempty m p l1 ab l2 : is_list m p (l1 ++ ab :: l2) → p ≠ None.
Proof.
  destruct l1 as [|[a1 b1] l1], ab as [a b]; simpl; intros (-> & _); done.
Qed.

(** What a successful search has done to the buffer. *)
Lemma allocate_loop_some fuel :
  ∀ m current sz m' p,
    allocate_loop fuel m current sz = Some (m', Some p) →
    fits sz (load m (p - sizeof_Block)) = true
    ∧ m' = if blk_size (load m (p - sizeof_Block)) >? sz + sizeof_Block
           then splitBlock m (p - sizeof_Block) sz
           else store_free m (p - sizeof_Block) 0.
Proof.
  induction fuel as [|fuel IH]; intros m [c|] sz m' p; simpl; try done.
  destruct (fits sz (load m c)) eqn:Hfit; [|by apply IH].
  rewrite to_int_sizeof.
  destruct (blk_size (load m c) >? sz + sizeof_Block) eqn:Hsplit;
    intros [= <- <-]; replace (c + sizeof_Block - sizeof_Block) with c by lia;
    by rewrite Hfit, Hsplit.
Qed.

Lemma allocate_loop_terminates m p l sz fuel :
  is_list m p l → (length l <= fuel)%nat →
  ∃ r, allocate_loop fuel m p sz = Some r.
Proof.
  intros Hl Hfuel.
  destruct (first_fit_cases sz l) as [Hno|(l1 & a & b & l2 & -> & Hno & Hfit)].
  - rewrite (allocate_loop_none _ _ l) by done. eauto.
  - apply is_seg_app in Hl as (r & Hl1 & Hl2). simpl in Hl2.
    destruct Hl2 as (-> & Hb & _). rewrite length_app in Hfuel. simpl in Hfuel.
    rewrite (allocate_loop_found _ _ l1 a); [eauto|done|done|by rewrite Hb|lia].
Qed.

Lemma allocate_terminates st l sz fuel :
  is_list (memory st) (freeList st) l → (length l < fuel)%nat →
  ∃ st' r, allocate fuel st sz = Some (st', r).
Proof.
  intros Hl Hfuel.
  destruct (size_cases sz) as [Hbad|Hsz].
  { rewrite allocate_invalid by done. eauto. }
  destruct (freeList st) as [hd|] eqn:Hhd.
  - rewrite allocate_initialized by (done || congruence). rewrite Hhd.
    destruct (allocate_loop_terminates (memory st) (Some hd) l sz fuel)
      as ([m' r] & ->); [done|lia|]. eauto.
  - rewrite allocate_lazy by done.
    destruct (allocate_inv (initialize st) _ sz fuel (initialize_inv st))
      as (st' & r & _ & -> & _); [simpl; lia|]. eauto.
Qed.

(** *** Sequences of calls *)

Lemma step_run_inv k i st c fuel :
  run_inv k i st → (S k <= fuel)%nat →
  ∃ st', step fuel st c = Some st' ∧ run_inv (S k) (i || initializes c) st'.
Proof.
  intros Hinv Hfuel. destruct i; simpl in *.
  - destruct Hinv as (l & Hinv & Hlen). destruct c as [sz|ptr]; simpl.
    + destruct (allocate_inv st l sz fuel Hinv) as (st' & r & l' & -> & Hinv' & Hlen');
        [lia|].
      exists st'. split; [done|]. exists l'. split; [done|lia].
    + destruct (deallocate_inv st l ptr fuel Hinv) as (st' & l' & -> & Hinv' & Hlen');
        [lia|].
      exists st'. split; [done|]. exists l'. split; [done|lia].
  - destruct c as [sz|[p|]]; simpl.
    + destruct (allocate_uninitialized st sz fuel Hinv) as (st' & r & -> & Hst');
        [lia|].
      exists st'. split; [done|]. simpl in Hst'.
      destruct ((0 <? sz) && (sz <=? MEMORY_SIZE)); simpl.
      * destruct Hst' as (l' & Hinv' & Hlen'). exists l'. split; [done|lia].
      * by subst.
    + unfold mergeFreeBlocks. simpl. rewrite Hinv, mergeFreeBlocks_loop_null. eauto.
    + eauto.
Qed.

Lemma run_run_inv cs :
  ∀ k i st fuel,
    run_inv k i st → (k + length cs <= fuel)%nat →
    ∃ st', run fuel st cs = Some st'
           ∧ run_inv (k + length cs) (i || existsb initializes cs) st'.
Proof.
  induction cs as [|c cs IH]; intros k i st fuel Hinv Hfuel; simpl in *.
  - exists st. split; [done|]. by rewrite orb_false_r, Nat.add_0_r.
  - destruct (step_run_inv k i st c fuel Hinv) as (st1 & -> & Hinv1); [lia|].
    destruct (IH (S k) _ st1 fuel Hinv1) as (st' & -> & Hinv'); [lia|].
    exists st'. split; [done|].
    rewrite orb_assoc. by replace (k + S (length cs))%nat with (S k + length cs)%nat by lia.
Qed.

(** ** The claims *)

(** C2. First fit.  When the list of blocks is [l1 ++ (a, b) :: l2], no
    block of [l1] is both free and large enough for a request of a valid size
    [sz], and [b] is, [allocate] returns the address that follows the header
    of [b] and it is the block at [a] that it marks allocated.  There is one
    such block only, and the choice depends on the state and the size alone:
    any other bound on the search that reaches the block gives the same
    result. *)
Theorem first_fit_selection (st : state) (l1 l2 : list (Z * Block)) (a : Z) (b : Block)
    (sz : Z) (fuel fuel' : nat) :
  is_list (memory st) (freeList st) (l1 ++ (a, b) :: l2) →
  0 < sz <= MEMORY_SIZE →
  none_fits sz l1 → fits sz b = true →
  (length l1 < fuel)%nat → (length l1 < fuel')%nat →
  (∃ st', allocate fuel st sz = Some (st', Some (a + sizeof_Block))
          ∧ is_free (load (memory st') a) = false
          ∧ allocate fuel' st sz = allocate fuel st sz)
  ∧ (∀ l1' a' b' l2',
       l1 ++ (a, b) :: l2 = l1' ++ (a', b') :: l2' →
       none_fits sz l1' → fits sz b' = true → l1' = l1 ∧ a' = a ∧ b' = b).
Proof.
  intros Hl Hsz Hno Hfit Hfuel Hfuel'. split.
  2:{ intros l1' a' b' l2' Heq Hno' Hfit'.
      destruct (first_fit_unique sz _ _ _ _ _ _ _ _ Heq Hno Hfit Hno' Hfit')
        as (-> & -> & -> & _). done. }
  pose proof (is_list_nonempty _ _ _ _ _ Hl) as Hhd.
  apply is_seg_app in Hl as (r & Hl1 & Hl2). simpl in Hl2.
  destruct Hl2 as (-> & Hb & _).
  rewrite !allocate_initialized by done.
  rewrite (allocate_loop_found _ _ l1 a sz fuel), (allocate_loop_found _ _ l1 a sz fuel');
    try done; try by rewrite Hb.
  eexists. split; [done|]. split; [|done]. simpl.
  destruct (_ >? _).
  - rewrite load_splitBlock by lia. by rewrite decide_True.
  - by rewrite load_store_free_eq.
Qed.

(** C3. Split or no split.  On a state whose blocks [l1 ++ (a, b) :: l2]
    cover the arena, with [b] the first block that fits a valid request
    [sz]: if [size b > sz + sizeof_Block], the block at [a] gets size [sz]
    and is marked allocated, and a new free block of size
    [size b - sz - sizeof_Block] stands at offset [a + sizeof_Block + sz],
    linked right after it and before [l2]; otherwise the block at [a] is
    marked allocated and keeps its size and its link.  The other blocks of
    the list are as before. *)
Theorem split_postcondition (st : state) (l1 l2 : list (Z * Block)) (a : Z) (b : Block)
    (sz : Z) (fuel : nat) :
  inv st (l1 ++ (a, b) :: l2) →
  0 < sz <= MEMORY_SIZE →
  none_fits sz l1 → fits sz b = true → (length l1 < fuel)%nat →
  ∃ st', allocate fuel st sz = Some (st', Some (a + sizeof_Block))
         ∧ freeList st' = freeList st
         ∧ (sz + sizeof_Block < blk_size b →
              is_list (memory st') (freeList st')
                (l1 ++ (a, mkBlock sz 0 (Some (a + sizeof_Block + sz)))
                    :: (a + sizeof_Block + sz,
                        mkBlock (blk_size b - sz - sizeof_Block) 1 (blk_next b))
                    :: l2))
         ∧ (blk_size b <= sz + sizeof_Block →
              is_list (memory st') (freeList st')
                (l1 ++ (a, mkBlock (blk_size b) 0 (blk_next b)) :: l2)).
Proof.
  intros [Hl Hc] Hsz Hno Hfit Hfuel.
  pose proof (is_list_nonempty _ _ _ _ _ Hl) as Hhd.
  rewrite allocate_initialized by done.
  destruct (allocate_loop_blocks (memory st) (freeList st) l1 a b l2 0 MEMORY_SIZE sz fuel)
    as (m' & -> & Hl' & _); try done; try lia.
  eexists. split; [done|]. split; [done|]. simpl.
  unfold allocated_blocks in Hl'. split; intros Hcmp.
  - replace (blk_size b >? sz + sizeof_Block) with true in Hl'; [done|].
    symmetry. rewrite Z.gtb_ltb. by apply Z.ltb_lt.
  - replace (blk_size b >? sz + sizeof_Block) with false in Hl'; [done|].
    symmetry. rewrite Z.gtb_ltb. by apply Z.ltb_ge.
Qed.

(** C5. Round trip on the untouched arena.  A request of [n] bytes,
    [0 < n <= MEMORY_SIZE], succeeds exactly when
    [n <= MEMORY_SIZE - sizeof_Block]; and when it succeeds, freeing the
    returned address leaves the list with the single free block of size
    [MEMORY_SIZE - sizeof_Block] at offset 0, which is the list that
    [initialize] creates. *)
Theorem round_trip (n : Z) (fuel : nat) :
  0 < n <= MEMORY_SIZE → (2 <= fuel)%nat →
  ∃ st1 r,
    allocate fuel fresh n = Some (st1, r)
    ∧ (r ≠ None ↔ n <= MEMORY_SIZE - sizeof_Block)
    ∧ (∀ p, r = Some p →
         p = sizeof_Block
         ∧ ∃ st2, deallocate fuel st1 (Some p) = Some st2
                  ∧ is_list (memory st2) (freeList st2)
                      [(0, mkBlock (MEMORY_SIZE - sizeof_Block) 1 None)])
    ∧ is_list (memory (initialize fresh)) (freeList (initialize fresh))
        [(0, mkBlock (MEMORY_SIZE - sizeof_Block) 1 None)].
Proof.
  intros Hn Hfuel.
  pose proof (initialize_inv fresh) as Hinv.
  pose proof (inv_head _ _ Hinv) as Hhd.
  destruct Hinv as [Hl Hc].
  rewrite allocate_lazy by done.
  rewrite allocate_initialized by (done || congruence).
  set (b0 := mkBlock (MEMORY_SIZE - sizeof_Block) 1 None) in *.
  destruct (fits n b0) eqn:Hfit.
  - destruct (allocate_loop_blocks (memory (initialize fresh)) (freeList (initialize fresh))
                [] 0 b0 [] 0 MEMORY_SIZE n fuel)
      as (m' & -> & Hl' & _); try done; try lia; [constructor|simpl; lia|].
    eexists _, _. split; [done|].
    assert (Hle : n <= MEMORY_SIZE - sizeof_Block).
    { unfold fits in Hfit. apply andb_prop in Hfit as (_ & Hle%Z.leb_le). done. }
    split; [split; [done|congruence]|]. split; [|done].
    intros p [= <-]. split; [lia|].
    destruct (deallocate_blocks (mkState m' (freeList (initialize fresh)))
                _ (0 + sizeof_Block) fuel Hl')
      as (st2 & -> & _ & Hl2).
    { simpl. unfold allocated_blocks. destruct (_ >? _); simpl; lia. }
    exists st2. split; [done|].
    replace (0 + sizeof_Block - sizeof_Block) with 0 in Hl2 by lia.
    simpl in Hl2. unfold allocated_blocks in Hl2.
    destruct (blk_size b0 >? n + sizeof_Block) eqn:Hsplit; simpl in Hl2.
    + rewrite decide_False in Hl2 by lia. simpl in Hl2.
      rewrite to_int_small in Hl2 by (unfold MEMORY_SIZE in *; lia).
      replace (n + (sizeof_Block + (MEMORY_SIZE - sizeof_Block - n - sizeof_Block)))
        with (MEMORY_SIZE - sizeof_Block) in Hl2 by lia.
      done.
    + done.
  - rewrite (allocate_loop_none _ _ [(0, b0)]); [|done|by repeat constructor|simpl; lia].
    eexists _, _. split; [done|]. split; [|split; [done|done]].
    unfold fits in Hfit. simpl in Hfit. apply Z.leb_gt in Hfit.
    split; [done|lia].
Qed.

(** C6. Failure is the null result.  [allocate] returns null, and leaves the
    state as it was, when the size is not positive or exceeds [MEMORY_SIZE]
    (sizes 0 and [MEMORY_SIZE + 1] among them), and when the list exists and
    none of its blocks is free and large enough.  On every state with a
    finite list the call returns, with a pointer or with null: there is no
    other outcome. *)
Theorem allocate_failure :
  (∀ st fuel sz, sz <= 0 ∨ MEMORY_SIZE < sz → allocate fuel st sz = Some (st, None))
  ∧ (∀ st fuel, allocate fuel st 0 = Some (st, None)
                ∧ allocate fuel st (MEMORY_SIZE + 1) = Some (st, None))
  ∧ (∀ st l fuel sz,
       is_list (memory st) (freeList st) l → freeList st ≠ None →
       0 < sz <= MEMORY_SIZE → none_fits sz l → (length l <= fuel)%nat →
       allocate fuel st sz = Some (st, None))
  ∧ (∀ st l fuel sz,
       is_list (memory st) (freeList st) l → (length l < fuel)%nat →
       ∃ st' r, allocate fuel st sz = Some (st', r)).
Proof.
  split; [|split; [|split]].
  - intros st fuel sz Hbad. by apply allocate_invalid.
  - intros st fuel. split; apply allocate_invalid; lia.
  - intros st l fuel sz Hl Hhd Hsz Hno Hfuel.
    rewrite allocate_initialized by done.
    rewrite (allocate_loop_none _ _ l) by done. by destruct st.
  - intros st l fuel sz Hl Hfuel. by eapply allocate_terminates.
Qed.

(** C9. [deallocate] of the null pointer is a no-op: on every state, with
    a cyclic or broken list too, and without a single loop iteration, it
    returns the state it was given, so that every header of the buffer (size,
    free flag, next link), [freeList] and the list of blocks are what they
    were. *)
Theorem deallocate_null (fuel : nat) (st : state) :
  ∃ st', deallocate fuel st None = Some st'
         ∧ st' = st
         ∧ (∀ q, load (memory st') q = load (memory st) q)
         ∧ freeList st' = freeList st
         ∧ (∀ l, is_list (memory st) (freeList st) l →
                 is_list (memory st') (freeList st') l).
Proof.
  exists st. split.
  - unfold deallocate. reflexivity.
  - repeat split; auto.
Qed.

(** C10. Rejection of a size comes first.  With a size that is not positive
    or exceeds [MEMORY_SIZE], [allocate] returns null and the state is the
    one it was given, so an arena without a list still has none.  With a size
    in [(0, MEMORY_SIZE]] and no list yet, the call is the call on the state
    that [initialize] builds, whose list is the one free block of size
    [MEMORY_SIZE - sizeof_Block] at offset 0; the list exists afterwards, and
    when the size exceeds [MEMORY_SIZE - sizeof_Block] the call returns null
    and leaves exactly that state. *)
Theorem invalid_size_before_initialization :
  (∀ st fuel sz, sz <= 0 ∨ MEMORY_SIZE < sz → allocate fuel st sz = Some (st, None))
  ∧ (∀ fuel sz, sz <= 0 ∨ MEMORY_SIZE < sz →
       ∃ st', allocate fuel fresh sz = Some (st', None)
              ∧ st' = fresh ∧ freeList st' = None)
  ∧ (∀ st fuel sz,
       freeList st = None → 0 < sz <= MEMORY_SIZE → (1 <= fuel)%nat →
       inv (initialize st) [(0, mkBlock (MEMORY_SIZE - sizeof_Block) 1 None)]
       ∧ ∃ st' r, allocate fuel st sz = Some (st', r)
                  ∧ freeList st' = Some 0
                  ∧ (MEMORY_SIZE - sizeof_Block < sz → r = None ∧ st' = initialize st)).
Proof.
  split; [|split].
  - intros st fuel sz Hbad. by apply allocate_invalid.
  - intros fuel sz Hbad. exists fresh. by rewrite allocate_invalid.
  - intros st fuel sz Hnone Hsz Hfuel.
    pose proof (initialize_inv st) as Hinv. split; [done|].
    rewrite allocate_lazy by done.
    destruct (allocate_inv (initialize st) _ sz fuel Hinv)
      as (st' & r & l' & Hrun & Hinv' & _); [simpl; lia|].
    exists st', r. split; [done|]. split; [by eapply inv_head|].
    intros Hbig. destruct Hinv as [Hl _].
    rewrite allocate_initialized in Hrun by (done || by rewrite (inv_head _ _ Hinv')).
    rewrite (allocate_loop_none _ _ [(0, mkBlock (MEMORY_SIZE - sizeof_Block) 1 None)])
      in Hrun; [| done | | simpl; lia].
    + by injection Hrun as <- <-.
    + repeat constructor. unfold fits. simpl. apply Z.leb_gt. lia.
Qed.

(** ** Further properties of the code *)

(** *** Free neighbours *)

Lemma naf_cons a b l :
  no_adjacent_free ((a, b) :: l) ↔
  (∀ y, head l = Some y → is_free b && is_free (snd y) = false) ∧ no_adjacent_free l.
Proof.
  destruct l as [|[a' b'] l]; simpl.
  - split; [intros _; split; [intros y [=]|done]|done].
  - split.
    + intros [Hf Hl]. split; [|done]. by intros y [= <-].
    + intros [Hf Hl]. split; [|done]. by apply (Hf (a', b')).
Qed.

Lemma naf_app l1 l2 :
  no_adjacent_free (l1 ++ l2) ↔
  no_adjacent_free l1 ∧ no_adjacent_free l2
  ∧ (∀ x y, last l1 = Some x → head l2 = Some y →
            is_free (snd x) && is_free (snd y) = false).
Proof.
  induction l1 as [|[a b] l1 IH].
  - simpl. split; [intros Hl; split; [done|split; [done|intros x y [=]]]|tauto].
  - change (((a, b) :: l1) ++ l2) with ((a, b) :: (l1 ++ l2)).
    rewrite !naf_cons, IH. destruct l1 as [|[a' b'] l1].
    + simpl. split.
      * intros (Hh & _ & Hl2 & _). split; [split; [by intros y [=]|done]|].
        split; [done|]. intros x y [= <-] Hy. by apply Hh.
      * intros ((_ & _) & Hl2 & Hlast). split; [|split; [done|split; [done|by intros x y [=]]]].
        intros y Hy. by apply (Hlast (a, b)).
    + rewrite last_cons_cons. simpl head. tauto.
Qed.

Lemma fits_free sz b : fits sz b = true → is_free b = true ∧ sz <= blk_size b.
Proof. unfold fits. intros (Hf & Hle%Z.leb_le)%andb_prop. done. Qed.

(** Serving a request from a free block creates no pair of free neighbours. *)
Lemma allocated_blocks_naf sz l1 a b l2 :
  is_free b = true →
  no_adjacent_free (l1 ++ (a, b) :: l2) →
  no_adjacent_free (l1 ++ allocated_blocks sz a b ++ l2).
Proof.
  intros Hb. rewrite naf_app, naf_cons. intros (Hl1 & (Hh & Hl2) & Hlast).
  assert (Hh2 : ∀ y, head l2 = Some y → is_free (snd y) = false).
  { intros y Hy. specialize (Hh y Hy). by rewrite Hb in Hh. }
  unfold allocated_blocks. destruct (_ >? _); simpl; rewrite naf_app, !naf_cons.
  - split; [done|]. split; [split; [by intros y [= <-]|]|].
    + split; [|done]. intros y Hy. simpl. by apply Hh2.
    + intros x y _ [= <-]. simpl. apply andb_false_r.
  - split; [done|]. split; [split; [by intros y _|done]|].
    intros x y _ [= <-]. simpl. apply andb_false_r.
Qed.

Lemma allocated_blocks_flags sz l1 a b l2 :
  flags_ok (l1 ++ (a, b) :: l2) → flags_ok (l1 ++ allocated_blocks sz a b ++ l2).
Proof.
  unfold flags_ok. rewrite !Forall_app, Forall_cons. intros (Hl1 & _ & Hl2).
  split; [done|]. split; [|done].
  unfold allocated_blocks.
  destruct (_ >? _); repeat (apply Forall_cons; split); simpl; auto.
Qed.

Lemma mark_free_flags x l : flags_ok l → flags_ok (mark_free x l).
Proof.
  unfold flags_ok, mark_free. intros Hl. apply Forall_map.
  eapply Forall_impl; [exact Hl|]. intros [a b] Hb. simpl in *.
  case_decide; simpl; auto.
Qed.

Lemma merge_from_flags a b rest :
  flags_ok ((a, b) :: rest) → flags_ok (merge_from a b rest).
Proof.
  unfold flags_ok. revert a b. induction rest as [|[a' b'] rest IH]; intros a b Hl; simpl.
  - done.
  - apply Forall_cons in Hl as (Hb & Hl). apply Forall_cons in Hl as (Hb' & Hl).
    destruct (is_free b && is_free b').
    + apply IH. constructor; [done|done].
    + constructor; [done|]. apply IH. by constructor.
Qed.

(** *** The operations on a list that covers the arena *)

Lemma allocate_at st l1 a b l2 sz fuel :
  inv st (l1 ++ (a, b) :: l2) → 0 < sz <= MEMORY_SIZE →
  none_fits sz l1 → fits sz b = true → (length l1 < fuel)%nat →
  ∃ st', allocate fuel st sz = Some (st', Some (a + sizeof_Block))
         ∧ inv st' (l1 ++ allocated_blocks sz a b ++ l2).
Proof.
  intros [Hl Hc] Hsz Hno Hfit Hfuel.
  pose proof (is_list_nonempty _ _ _ _ _ Hl) as Hhd.
  rewrite allocate_initialized by done.
  destruct (allocate_loop_blocks (memory st) (freeList st) l1 a b l2 0 MEMORY_SIZE sz fuel)
    as (m' & -> & Hl' & Hc' & _); try done; try lia.
  eexists. split; [done|]. split; [exact Hl'|exact Hc'].
Qed.

Lemma allocate_none st l sz fuel :
  inv st l → 0 < sz <= MEMORY_SIZE → none_fits sz l → (length l <= fuel)%nat →
  allocate fuel st sz = Some (st, None).
Proof.
  intros Hinv Hsz Hno Hfuel. pose proof (inv_head _ _ Hinv) as Hhd.
  destruct Hinv as [Hl _].
  rewrite allocate_initialized by (done || congruence).
  rewrite (allocate_loop_none _ _ l) by done. by destruct st.
Qed.

Lemma deallocate_at st l p fuel :
  inv st l → (length l <= fuel)%nat →
  ∃ st', deallocate fuel st (Some p) = Some st'
         ∧ inv st' (merge_blocks (mark_free (p - sizeof_Block) l)).
Proof.
  intros [Hl Hc] Hfuel.
  destruct (deallocate_blocks st l p fuel Hl Hfuel) as (st' & Hrun & _ & Hl').
  exists st'. split; [done|]. split; [done|].
  apply (tiles_mark_free (p - sizeof_Block)) in Hc.
  destruct (mark_free (p - sizeof_Block) l) as [|[a b] rest]; simpl in *; [done|].
  apply merge_from_tiles; [lia|lia|done].
Qed.

Lemma initialize_good st :
  good (initialize st) [(0, mkBlock (MEMORY_SIZE - sizeof_Block) 1 None)].
Proof.
  split; [apply initialize_inv|]. split; [done|].
  apply Forall_cons. split; [simpl; auto|constructor].
Qed.

Lemma allocate_good st l sz fuel :
  good st l → (length l <= fuel)%nat →
  ∃ st' r l', allocate fuel st sz = Some (st', r) ∧ good st' l'
              ∧ (length l' <= S (length l))%nat.
Proof.
  intros (Hinv & Hnaf & Hflags) Hfuel.
  destruct (size_cases sz) as [Hbad|Hsz].
  { rewrite allocate_invalid by done. exists st, None, l. repeat split; auto; apply Hinv. }
  destruct (first_fit_cases sz l) as [Hno|(l1 & a & b & l2 & -> & Hno & Hfit)].
  - rewrite (allocate_none st l) by done.
    exists st, None, l. repeat split; auto; apply Hinv.
  - destruct (allocate_at st l1 a b l2 sz fuel) as (st' & -> & Hinv'); try done.
    { rewrite length_app in Hfuel. simpl in Hfuel. lia. }
    destruct (fits_free _ _ Hfit) as (Hfree & _).
    eexists _, _, _. split; [done|]. split; [split; [exact Hinv'|split]|].
    + by apply allocated_blocks_naf.
    + by apply allocated_blocks_flags.
    + rewrite !length_app. simpl. unfold allocated_blocks.
      destruct (_ >? _); simpl; lia.
Qed.

Lemma deallocate_good st l ptr fuel :
  good st l → (length l <= fuel)%nat →
  ∃ st' l', deallocate fuel st ptr = Some st' ∧ good st' l'
            ∧ (length l' <= length l)%nat.
Proof.
  intros (Hinv & Hnaf & Hflags) Hfuel. destruct ptr as [p|].
  - destruct (deallocate_at st l p fuel Hinv Hfuel) as (st' & -> & Hinv').
    exists st', (merge_blocks (mark_free (p - sizeof_Block) l)).
    split; [done|].
    apply (mark_free_flags (p - sizeof_Block)) in Hflags.
    pose proof (length_mark_free (p - sizeof_Block) l) as Hlen.
    destruct (mark_free (p - sizeof_Block) l) as [|[a b] rest]; simpl in *.
    + split; [|lia]. split; [done|]. split; [done|constructor].
    + split; [split; [done|split]|].
      * apply merge_from_no_adjacent_free.
      * by apply merge_from_flags.
      * pose proof (merge_from_length a b rest). lia.
  - exists st, l. simpl. repeat split; auto; apply Hinv.
Qed.

Lemma step_reach_inv k i st c fuel :
  reach_inv k i st → (S k <= fuel)%nat →
  ∃ st', step fuel st c = Some st'
         ∧ reach_inv (k + allocations [c]) (i || initializes c) st'.
Proof.
  intros Hinv Hfuel. destruct i; simpl in Hinv.
  - destruct Hinv as (l & Hgood & Hlen). destruct c as [sz|ptr]; simpl.
    + destruct (allocate_good st l sz fuel Hgood) as (st' & r & l' & -> & Hgood' & Hlen');
        [lia|].
      exists st'. split; [done|]. exists l'. split; [done|lia].
    + destruct (deallocate_good st l ptr fuel Hgood) as (st' & l' & -> & Hgood' & Hlen');
        [lia|].
      exists st'. split; [done|]. exists l'. split; [done|lia].
  - destruct c as [sz|[p|]]; simpl.
    + destruct (size_cases sz) as [Hbad|Hsz].
      { rewrite allocate_invalid by done.
        pose proof (initializes_false sz Hbad) as Hi. simpl in Hi. rewrite Hi.
        exists st. split; [done|done]. }
      rewrite allocate_lazy by done.
      pose proof (initializes_true sz Hsz) as Hi. simpl in Hi. rewrite Hi.
      destruct (allocate_good (initialize st) _ sz fuel (initialize_good st))
        as (st' & r & l' & -> & Hgood' & Hlen'); [simpl; lia|].
      exists st'. split; [done|]. exists l'. simpl in Hlen'. split; [done|lia].
    + unfold mergeFreeBlocks. simpl. rewrite Hinv, mergeFreeBlocks_loop_null. eauto.
    + eauto.
Qed.

Lemma run_reach_inv cs :
  ∀ k i st fuel,
    reach_inv k i st → (k + allocations cs < fuel)%nat →
    ∃ st', run fuel st cs = Some st'
           ∧ reach_inv (k + allocations cs) (i || existsb initializes cs) st'.
Proof.
  induction cs as [|c cs IH]; intros k i st fuel Hinv Hfuel.
  - exists st. split; [done|]. simpl. by rewrite orb_false_r, Nat.add_0_r.
  - destruct (step_reach_inv k i st c fuel Hinv) as (st1 & Hstep & Hinv1); [lia|].
    destruct (IH _ _ st1 fuel Hinv1) as (st' & Hrun & Hinv').
    { destruct c; simpl in *; lia. }
    exists st'. simpl run. rewrite Hstep. split; [done|].
    simpl existsb. rewrite orb_assoc.
    replace (k + allocations (c :: cs))%nat with (k + allocations [c] + allocations cs)%nat;
      [done|destruct c; simpl; lia].
Qed.

(** *** Blocks that stay *)

Lemma merge_from_keeps a b rest x :
  In x ((a, b) :: rest) → is_free (snd x) = false → In x (merge_from a b rest).
Proof.
  revert a b. induction rest as [|[a' b'] rest IH]; intros a b Hin Hx; [done|].
  simpl. destruct (is_free b && is_free b') eqn:Hfree.
  - apply andb_prop in Hfree as (Hb & Hb'). apply IH; [|done].
    destruct Hin as [<-|[<-|Hin]]; simpl in Hx; [congruence|congruence|].
    by right.
  - destruct Hin as [<-|Hin]; [by left|]. right. by apply IH.
Qed.

Lemma mark_free_keeps x l ab : In ab l → fst ab ≠ x → In ab (mark_free x l).
Proof.
  intros Hin Hne. unfold mark_free. apply in_map_iff. exists ab.
  by rewrite decide_False.
Qed.

Lemma is_list_In_load m p l a b : is_list m p l → In (a, b) l → load m a = b.
Proof.
  unfold is_list. revert p. induction l as [|[a' b'] l IH]; intros p Hl Hin; [done|].
  destruct Hl as (_ & Hb & Hl). destruct Hin as [[= <- <-]|Hin]; [done|]. eauto.
Qed.

(** Two blocks of a tiling do not overlap. *)
Lemma tiles_disjoint lo l hi x y :
  tiles lo l hi → In x l → In y l → x ≠ y →
  fst x + sizeof_Block + blk_size (snd x) <= fst y
  ∨ fst y + sizeof_Block + blk_size (snd y) <= fst x.
Proof.
  intros Ht Hx Hy Hne.
  destruct (tiles_bounds _ _ _ Ht) as (_ & Hb).
  pose proof (Hb _ Hx) as Hbx. pose proof (Hb _ Hy) as Hby.
  destruct (decide (fst x + sizeof_Block + blk_size (snd x) <= fst y)) as [|Hn1]; [by left|].
  destruct (decide (fst y + sizeof_Block + blk_size (snd y) <= fst x)) as [|Hn2]; [by right|].
  exfalso. apply Hne. symmetry.
  apply (tiles_unique lo l hi (Z.max (fst x) (fst y))); try done; unfold in_block; lia.
Qed.

(** *** Theorems on sequences of calls and on live blocks *)

(** X1. After every sequence of calls on the untouched arena that respects
    the contract of [deallocate], the list has no two neighbours that are
    both free: [allocate] splits only a free block whose neighbours are
    allocated, and [deallocate] ends with the coalescing pass.  The loops
    need one iteration more than the sequence has calls of [allocate]. *)
Theorem reachable_no_adjacent_free (cs : list call) (fuel : nat) :
  (allocations cs < fuel)%nat → respects fuel fresh cs →
  ∃ st, run fuel fresh cs = Some st
        ∧ if existsb initializes cs
          then ∃ l, is_list (memory st) (freeList st) l ∧ no_adjacent_free l
          else freeList st = None.
Proof.
  intros Hfuel _.
  destruct (run_reach_inv cs 0 false fresh fuel) as (st & Hrun & Hinv); [done|lia|].
  exists st. split; [done|]. simpl in Hinv.
  destruct (existsb initializes cs); simpl in *; [|done].
  destruct Hinv as (l & ((Hl & _) & Hnaf & _) & _). eauto.
Qed.

(** X2. After a sequence of calls on the untouched arena that respects the
    contract of [deallocate], the list has at least one block and at most
    one more than the sequence has calls of [allocate]; every [free] field
    is 0 or 1 and every [size] lies between 0 and
    [MEMORY_SIZE - sizeof_Block]. *)
Theorem reachable_block_bounds (cs : list call) (fuel : nat) :
  (allocations cs < fuel)%nat → respects fuel fresh cs →
  ∃ st, run fuel fresh cs = Some st
        ∧ if existsb initializes cs
          then ∃ l, is_list (memory st) (freeList st) l
                    ∧ (1 <= length l <= S (allocations cs))%nat
                    ∧ ∀ a b, In (a, b) l →
                        (blk_free b = 0 ∨ blk_free b = 1)
                        ∧ 0 <= blk_size b <= MEMORY_SIZE - sizeof_Block
          else freeList st = None.
Proof.
  intros Hfuel _.
  destruct (run_reach_inv cs 0 false fresh fuel) as (st & Hrun & Hinv); [done|lia|].
  exists st. split; [done|]. simpl in Hinv.
  destruct (existsb initializes cs); simpl in *; [|done].
  destruct Hinv as (l & ((Hl & Hc) & _ & Hflags) & Hlen). exists l.
  split; [done|]. split.
  - split; [|done]. destruct l; [|simpl; lia].
    unfold covers in Hc. simpl in Hc. unfold MEMORY_SIZE in Hc. lia.
  - intros a b Hin. split.
    + unfold flags_ok in Hflags. rewrite Forall_forall in Hflags.
      apply (Hflags (a, b)). by apply list_elem_of_In.
    + destruct (tiles_bounds _ _ _ Hc) as (_ & Hb). specialize (Hb _ Hin).
      simpl in Hb. lia.
Qed.

(** The block behind a returned address, before and after the call. *)
Lemma allocate_some_blocks (st st' : state) (l : list (Z * Block)) (sz p : Z) (fuel : nat) :
  inv st l → (length l <= fuel)%nat →
  allocate fuel st sz = Some (st', Some p) →
  ∃ l' b b',
    inv st' l'
    ∧ In (p - sizeof_Block, b) l ∧ is_free b = true
    ∧ In (p - sizeof_Block, b') l' ∧ is_free b' = false
    ∧ 0 < sz <= blk_size b' ∧ blk_size b' <= blk_size b
    ∧ sizeof_Block <= p ∧ p + blk_size b' <= MEMORY_SIZE.
Proof.
  intros Hinv Hfuel Hrun.
  destruct (size_cases sz) as [Hbad|Hsz].
  { by rewrite allocate_invalid in Hrun. }
  destruct (first_fit_cases sz l) as [Hno|(l1 & a & b & l2 & -> & Hno & Hfit)].
  { by rewrite (allocate_none st l) in Hrun. }
  destruct (allocate_at st l1 a b l2 sz fuel) as (st1 & Hrun1 & Hinv1); try done.
  { rewrite length_app in Hfuel. simpl in Hfuel. lia. }
  rewrite Hrun1 in Hrun. injection Hrun as -> <-.
  replace (a + sizeof_Block - sizeof_Block) with a by lia.
  destruct (fits_free _ _ Hfit) as (Hfree & Hle).
  destruct Hinv as [_ Hc]. destruct (tiles_bounds _ _ _ Hc) as (_ & Hb).
  specialize (Hb (a, b)). simpl in Hb.
  destruct Hb as (Ha & Hb0 & Hend); [apply in_app_iff; simpl; auto|].
  exists (l1 ++ allocated_blocks sz a b ++ l2), b.
  unfold allocated_blocks in *. destruct (blk_size b >? sz + sizeof_Block) eqn:Hsplit.
  - eexists. split; [exact Hinv1|]. split; [apply in_app_iff; simpl; auto|].
    split; [done|]. split; [apply in_app_iff; right; left; reflexivity|].
    simpl. repeat split; try done; lia.
  - eexists. split; [exact Hinv1|]. split; [apply in_app_iff; simpl; auto|].
    split; [done|]. split; [apply in_app_iff; right; left; reflexivity|].
    simpl. repeat split; try done; lia.
Qed.

(** X3. What [allocate] hands out.  When a call on a list that covers the
    arena returns the address [p], the header at [p - sizeof_Block] was a
    free block of the list before the call and is an allocated block of the
    list after it, the one the buffer holds at that offset; its payload has
    at least the requested [sz > 0] bytes, at most those of the block it came
    from, and lies inside the arena. *)
Theorem allocation_valid (st st' : state) (l : list (Z * Block)) (sz p : Z) (fuel : nat) :
  inv st l → (length l <= fuel)%nat →
  allocate fuel st sz = Some (st', Some p) →
  ∃ l' b b',
    inv st' l'
    ∧ In (p - sizeof_Block, b) l ∧ is_free b = true
    ∧ In (p - sizeof_Block, b') l' ∧ is_free b' = false
    ∧ load (memory st') (p - sizeof_Block) = b'
    ∧ 0 < sz <= blk_size b' ∧ blk_size b' <= blk_size b
    ∧ sizeof_Block <= p ∧ p + blk_size b' <= MEMORY_SIZE.
Proof.
  intros Hinv Hfuel Hrun.
  destruct (allocate_some_blocks st st' l sz p fuel Hinv Hfuel Hrun)
    as (l' & b & b' & Hinv' & Hin & Hfree & Hin' & Hfree' & Hrest).
  exists l', b, b'. split; [done|]. split; [done|]. split; [done|].
  split; [done|]. split; [done|]. split; [|done].
  destruct Hinv' as [Hl' _]. by eapply is_list_In_load.
Qed.

(** One call leaves an allocated block where it is, unless it releases it. *)
Lemma step_keeps_block st l a b c fuel :
  inv st l → In (a, b) l → is_free b = false →
  c ≠ Deallocate (Some (a + sizeof_Block)) → (length l <= fuel)%nat →
  ∃ st' l', step fuel st c = Some st' ∧ inv st' l' ∧ In (a, b) l'
            ∧ (length l' <= S (length l))%nat.
Proof.
  intros Hinv Hin Hb Hc Hfuel. destruct c as [sz|[p|]]; cbn [step].
  - destruct (size_cases sz) as [Hbad|Hsz].
    { rewrite allocate_invalid by done. exists st, l. repeat split; auto; apply Hinv. }
    destruct (first_fit_cases sz l) as [Hno|(l1 & a0 & b0 & l2 & -> & Hno & Hfit)].
    { rewrite (allocate_none st l) by done. exists st, l. repeat split; auto; apply Hinv. }
    destruct (allocate_at st l1 a0 b0 l2 sz fuel) as (st1 & -> & Hinv1); try done.
    { rewrite length_app in Hfuel. simpl in Hfuel. lia. }
    destruct (fits_free _ _ Hfit) as (Hfree & _).
    eexists _, _. split; [done|]. split; [exact Hinv1|]. split.
    + apply in_app_iff in Hin as [Hin|[[= -> ->]|Hin]].
      * apply in_app_iff. by left.
      * congruence.
      * apply in_app_iff. right. apply in_app_iff. by right.
    + rewrite !length_app. simpl. unfold allocated_blocks. destruct (_ >? _); simpl; lia.
  - destruct (deallocate_at st l p fuel Hinv Hfuel) as (st' & -> & Hinv').
    eexists _, _. split; [done|]. split; [exact Hinv'|].
    assert (Hne : a ≠ p - sizeof_Block).
    { intros ->. apply Hc. f_equal. f_equal. lia. }
    pose proof (mark_free_keeps (p - sizeof_Block) l (a, b) Hin Hne) as Hin'.
    pose proof (length_mark_free (p - sizeof_Block) l) as Hlen.
    destruct (mark_free (p - sizeof_Block) l) as [|[a0 b0] rest]; [done|].
    simpl merge_blocks. split; [by apply merge_from_keeps|].
    pose proof (merge_from_length a0 b0 rest). simpl in Hlen. lia.
  - exists st, l. repeat split; auto; apply Hinv.
Qed.

(** The same for a sequence of calls. *)
Lemma run_keeps_block (st : state) (l : list (Z * Block)) (a : Z) (b : Block)
    (cs : list call) (fuel : nat) :
  inv st l → In (a, b) l → is_free b = false →
  Forall (λ c, c ≠ Deallocate (Some (a + sizeof_Block))) cs →
  (length l + length cs <= fuel)%nat →
  ∃ st' l', run fuel st cs = Some st' ∧ inv st' l' ∧ In (a, b) l'
            ∧ (length l' <= length l + length cs)%nat.
Proof.
  revert st l. induction cs as [|c cs IH]; intros st l Hinv Hin Hb Hcs Hfuel.
  - exists st, l. split; [done|]. split; [done|]. split; [done|lia].
  - apply Forall_cons in Hcs as (Hc & Hcs). simpl in Hfuel.
    destruct (step_keeps_block st l a b c fuel Hinv Hin Hb Hc)
      as (st1 & l1 & Hstep & Hinv1 & Hin1 & Hlen1); [lia|].
    destruct (IH st1 l1 Hinv1 Hin1 Hb Hcs) as (st' & l' & Hrun & Hinv' & Hin' & Hlen');
      [lia|].
    exists st', l'. simpl. rewrite Hstep. repeat split; try done; try apply Hinv'. lia.
Qed.

(** X4. A block that is allocated stays as it is until it is released: a
    sequence of calls that respects the contract of [deallocate] and does
    not pass the address of the block to [deallocate] leaves it in the list
    with the same header (size, flag and link). *)
Theorem live_block_kept (st : state) (l : list (Z * Block)) (a : Z) (b : Block)
    (cs : list call) (fuel : nat) :
  inv st l → In (a, b) l → is_free b = false →
  Forall (λ c, c ≠ Deallocate (Some (a + sizeof_Block))) cs →
  respects fuel st cs →
  (length l + length cs <= fuel)%nat →
  ∃ st' l', run fuel st cs = Some st' ∧ inv st' l' ∧ In (a, b) l'
            ∧ load (memory st') a = b.
Proof.
  intros Hinv Hin Hb Hcs _ Hfuel.
  destruct (run_keeps_block st l a b cs fuel Hinv Hin Hb Hcs Hfuel)
    as (st' & l' & Hrun & Hinv' & Hin' & _).
  exists st', l'. repeat split; try done; try apply Hinv'.
  destruct Hinv' as [Hl' _]. by eapply is_list_In_load.
Qed.

(** X5. Two live allocations never share a byte.  If [allocate] returns
    [p1] for [sz1] bytes, the calls that follow respect the contract of
    [deallocate] and do not release [p1], and a later [allocate] returns
    [p2] for [sz2] bytes, then the two payloads [[p1, p1 + sz1)] and
    [[p2, p2 + sz2)] are disjoint. *)
Theorem live_allocations_disjoint (st st1 st2 st3 : state) (l : list (Z * Block))
    (sz1 p1 sz2 p2 : Z) (cs : list call) (fuel : nat) :
  inv st l → (length l + length cs + 1 <= fuel)%nat →
  allocate fuel st sz1 = Some (st1, Some p1) →
  Forall (λ c, c ≠ Deallocate (Some p1)) cs →
  respects fuel st1 cs →
  run fuel st1 cs = Some st2 →
  allocate fuel st2 sz2 = Some (st3, Some p2) →
  p1 + sz1 <= p2 ∨ p2 + sz2 <= p1.
Proof.
  intros Hinv Hfuel Hrun1 Hcs _ Hrun Hrun2.
  destruct (allocate_some_blocks st st1 l sz1 p1 fuel Hinv)
    as (l1 & _ & b1 & Hinv1 & _ & _ & Hin1 & Hf1 & Hs1 & _ & _ & _); [lia|done|].
  assert (Hlen1 : (length l1 <= S (length l))%nat).
  { destruct (allocate_inv st l sz1 fuel Hinv) as (st1' & r1 & l1' & Heq1 & Hinv1' & Hlen1);
      [lia|].
    rewrite Hrun1 in Heq1. injection Heq1 as <- <-.
    destruct Hinv1 as [Hl1 _], Hinv1' as [Hl1' _].
    by rewrite (is_seg_functional _ _ _ _ Hl1 Hl1'). }
  destruct (run_keeps_block st1 l1 (p1 - sizeof_Block) b1 cs fuel Hinv1 Hin1 Hf1)
    as (st2' & l2 & Hrun' & Hinv2 & Hin2 & Hlen2).
  { eapply Forall_impl; [exact Hcs|]. intros c Hc.
    by replace (p1 - sizeof_Block + sizeof_Block) with p1 by lia. }
  { lia. }
  rewrite Hrun in Hrun'. injection Hrun' as <-.
  destruct (allocate_some_blocks st2 st3 l2 sz2 p2 fuel Hinv2)
    as (l3 & b2 & b2' & _ & Hin2' & Hf2 & _ & _ & Hs2 & Hle2 & _ & _); [lia|done|].
  destruct Hinv2 as [_ Hc2].
  destruct (tiles_disjoint _ _ _ (p1 - sizeof_Block, b1) (p2 - sizeof_Block, b2) Hc2)
    as [Hd|Hd]; try done.
  - intros [= _ ->]. congruence.
  - simpl in Hd. left. lia.
  - simpl in Hd. right. lia.
Qed.

(** *** Releasing a block of the list *)

Lemma merge_from_id rest :
  ∀ a b, no_adjacent_free ((a, b) :: rest) → merge_from a b rest = (a, b) :: rest.
Proof.
  induction rest as [|[a' b'] rest IH]; intros a b Hnaf; [done|].
  destruct Hnaf as (Hf & Hnaf). simpl. rewrite Hf. f_equal. by apply IH.
Qed.

Lemma merge_from_absorb a b a' b' rest :
  is_free b = true → is_free b' = true →
  merge_from a b ((a', b') :: rest)
  = merge_from a (mkBlock (to_int (blk_size b + (sizeof_Block + blk_size b')))
                          (blk_free b) (blk_next b')) rest.
Proof. intros Hb Hb'. simpl. by rewrite Hb, Hb'. Qed.

Lemma merge_blocks_prefix l1 :
  ∀ c d rest,
    no_adjacent_free (l1 ++ [(c, d)]) →
    merge_blocks (l1 ++ (c, d) :: rest) = l1 ++ merge_from c d rest.
Proof.
  destruct l1 as [|[a b] l1]; [done|]. simpl. revert a b.
  induction l1 as [|[a1 b1] l1 IH]; intros a b c d rest Hnaf.
  - destruct Hnaf as (Hf & _). simpl. by rewrite Hf.
  - change (no_adjacent_free ((a, b) :: (a1, b1) :: (l1 ++ [(c, d)]))) in Hnaf.
    destruct Hnaf as (Hf & Hnaf). simpl. rewrite Hf. f_equal. by apply IH.
Qed.

Lemma mark_free_notin x l : ¬ In x (offsets l) → mark_free x l = l.
Proof.
  unfold mark_free, offsets. induction l as [|[a b] l IH]; intros Hx; [done|].
  simpl in *. rewrite decide_False by (intros ->; tauto). f_equal. apply IH. tauto.
Qed.

Lemma mark_free_block l1 a b l2 lo hi :
  tiles lo (l1 ++ (a, b) :: l2) hi →
  mark_free a (l1 ++ (a, b) :: l2)
  = l1 ++ (a, mkBlock (blk_size b) 1 (blk_next b)) :: l2.
Proof.
  intros Ht. apply tiles_app in Ht as (mid & Ht1 & Ht2). simpl in Ht2.
  destruct Ht2 as (-> & Hb & Ht2).
  unfold mark_free at 1. rewrite map_app. simpl. rewrite decide_True by done.
  fold (mark_free mid l1). fold (mark_free mid l2).
  rewrite !mark_free_notin; [done| |].
  - intros Hin. pose proof (tiles_offsets _ _ _ _ Ht2 Hin). lia.
  - intros Hin. pose proof (tiles_offsets _ _ _ _ Ht1 Hin). lia.
Qed.

(** [deallocate] of the address of a block of the list. *)
Lemma deallocate_block st l1 a b l2 fuel :
  inv st (l1 ++ (a, b) :: l2) → (length (l1 ++ (a, b) :: l2) <= fuel)%nat →
  ∃ st', deallocate fuel st (Some (a + sizeof_Block)) = Some st'
         ∧ inv st' (merge_blocks (l1 ++ (a, mkBlock (blk_size b) 1 (blk_next b)) :: l2)).
Proof.
  intros Hinv Hfuel.
  destruct (deallocate_at st _ (a + sizeof_Block) fuel Hinv Hfuel) as (st' & Hrun & Hinv').
  exists st'. split; [done|].
  replace (a + sizeof_Block - sizeof_Block) with a in Hinv' by lia.
  destruct Hinv as [_ Hc]. by rewrite (mark_free_block _ _ _ _ _ _ Hc) in Hinv'.
Qed.

(** The pass writes nothing when no two neighbours are free. *)
Lemma mergeFreeBlocks_loop_id rest :
  ∀ a b m fuel,
    load m a = b → is_list m (blk_next b) rest →
    no_adjacent_free ((a, b) :: rest) → (length rest <= fuel)%nat →
    mergeFreeBlocks_loop fuel m (Some a) = Some m.
Proof.
  unfold is_list.
  induction rest as [|[a' b'] rest IH]; intros a b m fuel Hb Hl Hnaf Hfuel; simpl in *.
  - destruct fuel; simpl; by rewrite Hb, Hl.
  - destruct Hl as (Hnext & Hb' & Hl). destruct Hnaf as (Hf & Hnaf).
    destruct fuel as [|fuel]; [lia|]. simpl. rewrite Hb, Hnext, Hb', Hf.
    apply (IH a' b'); auto. lia.
Qed.

Lemma merge_blocks_id l : no_adjacent_free l → merge_blocks l = l.
Proof. destruct l as [|[a b] rest]; [done|]. apply merge_from_id. Qed.

Lemma naf_prefix l1 l2 : no_adjacent_free (l1 ++ l2) → no_adjacent_free l1.
Proof. rewrite naf_app. tauto. Qed.

Lemma naf_suffix l1 l2 : no_adjacent_free (l1 ++ l2) → no_adjacent_free l2.
Proof. rewrite naf_app. tauto. Qed.

Lemma naf_prefix_cons l1 x l2 :
  no_adjacent_free (l1 ++ x :: l2) → no_adjacent_free (l1 ++ [x]).
Proof.
  change (l1 ++ x :: l2) with (l1 ++ [x] ++ l2). rewrite app_assoc. apply naf_prefix.
Qed.

(** Only the flag of a block matters for its neighbours. *)
Lemma naf_replace l1 a b b' l2 :
  is_free b' = is_free b →
  no_adjacent_free (l1 ++ (a, b) :: l2) → no_adjacent_free (l1 ++ (a, b') :: l2).
Proof.
  intros Hf. rewrite !naf_app, !naf_cons. intros (Hl1 & (Hh & Hl2) & Hlast).
  split; [done|]. split; [split; [|done]|].
  - intros y Hy. rewrite Hf. by apply Hh.
  - intros x y Hx [= <-]. simpl. rewrite Hf. by apply (Hlast x (a, b)).
Qed.

Lemma free_flag b :
  is_free b = true → blk_free b = 0 ∨ blk_free b = 1 →
  mkBlock (blk_size b) 1 (blk_next b) = b.
Proof.
  destruct b as [s f n]. unfold is_free. simpl. intros Hf [->| ->]; [done|done].
Qed.

(** *** Theorems on [deallocate] *)

(** X6. Round trip.  On a state reached through the operations (the list
    covers the arena, no two neighbours are free, the flags are 0 or 1),
    when [allocate] returns an address, [deallocate] of that address gives
    back the list of blocks there was before the request, whether the block
    was split or not. *)
Theorem allocate_deallocate_restores (st st1 : state) (l : list (Z * Block)) (sz p : Z)
    (fuel : nat) :
  good st l → (length l < fuel)%nat →
  allocate fuel st sz = Some (st1, Some p) →
  ∃ st2, deallocate fuel st1 (Some p) = Some st2 ∧ good st2 l.
Proof.
  intros (Hinv & Hnaf & Hflags) Hfuel Hrun.
  destruct (size_cases sz) as [Hbad|Hsz].
  { by rewrite allocate_invalid in Hrun. }
  destruct (first_fit_cases sz l) as [Hno|(l1 & a & b & l2 & -> & Hno & Hfit)].
  { rewrite (allocate_none st l) in Hrun by (done || lia). done. }
  rewrite length_app in Hfuel. simpl in Hfuel.
  destruct (allocate_at st l1 a b l2 sz fuel) as (st1' & Hrun1 & Hinv1); try done; [lia|].
  rewrite Hrun1 in Hrun. injection Hrun as -> <-.
  destruct (fits_free _ _ Hfit) as (Hfree & Hle).
  assert (Hb : mkBlock (blk_size b) 1 (blk_next b) = b).
  { apply free_flag; [done|]. unfold flags_ok in Hflags.
    rewrite Forall_app, Forall_cons in Hflags. tauto. }
  pose proof Hinv as [_ Hc]. destruct (tiles_bounds _ _ _ Hc) as (_ & Hbd).
  specialize (Hbd (a, b)). simpl in Hbd.
  destruct Hbd as (Ha & Hb0 & Hend); [apply in_app_iff; simpl; auto|].
  unfold allocated_blocks in Hinv1.
  destruct (blk_size b >? sz + sizeof_Block) eqn:Hsplit; simpl in Hinv1.
  - destruct (deallocate_block st1 l1 a _ _ fuel Hinv1) as (st2 & Hrun2 & Hinv2).
    { rewrite length_app. simpl. lia. }
    exists st2. split; [done|]. simpl in Hinv2.
    rewrite merge_blocks_prefix in Hinv2.
    2:{ apply naf_replace with b; [done|]. by apply naf_prefix_cons in Hnaf. }
    rewrite merge_from_absorb in Hinv2 by done. simpl in Hinv2.
    rewrite to_int_small in Hinv2 by (unfold MEMORY_SIZE in *; lia).
    replace (sz + (sizeof_Block + (blk_size b - sz - sizeof_Block))) with (blk_size b)
      in Hinv2 by lia.
    rewrite Hb in Hinv2. rewrite merge_from_id in Hinv2 by (by apply naf_suffix in Hnaf).
    done.
  - destruct (deallocate_block st1 l1 a _ _ fuel Hinv1) as (st2 & Hrun2 & Hinv2).
    { rewrite length_app. simpl. lia. }
    exists st2. split; [done|]. simpl in Hinv2. rewrite Hb in Hinv2.
    rewrite merge_blocks_id in Hinv2 by done. done.
Qed.

(** X7. Releasing a block whose neighbours are allocated.  When the list,
    with the block at [a] marked free, has no two free neighbours,
    [deallocate] of its address does one store, of 1 into its [free] field:
    the block stays a block of its own, of the same size, and nothing else
    in the buffer changes. *)
Theorem release_between_allocated (st : state) (l1 l2 : list (Z * Block)) (a : Z)
    (b : Block) (fuel : nat) :
  inv st (l1 ++ (a, b) :: l2) →
  no_adjacent_free (l1 ++ (a, mkBlock (blk_size b) 1 (blk_next b)) :: l2) →
  (length (l1 ++ (a, b) :: l2) <= fuel)%nat →
  deallocate fuel st (Some (a + sizeof_Block))
  = Some (mkState (store_free (memory st) a 1) (freeList st))
  ∧ is_list (store_free (memory st) a 1) (freeList st)
      (l1 ++ (a, mkBlock (blk_size b) 1 (blk_next b)) :: l2).
Proof.
  intros [Hl Hc] Hnaf Hfuel.
  apply (is_seg_mark_free _ a) in Hl. rewrite (mark_free_block _ _ _ _ _ _ Hc) in Hl.
  split; [|exact Hl].
  unfold deallocate, mergeFreeBlocks. cbn [memory freeList].
  replace (a + sizeof_Block - sizeof_Block) with a by lia.
  rewrite length_app in Hfuel. simpl in Hfuel.
  destruct (l1 ++ (a, mkBlock (blk_size b) 1 (blk_next b)) :: l2) as [|[a0 b0] rest] eqn:E.
  { by destruct l1. }
  assert (Hlen : (length rest <= fuel)%nat).
  { apply (f_equal length) in E. rewrite length_app in E. simpl in E. lia. }
  destruct Hl as (Hhd & Hb0 & Hrest). rewrite Hhd.
  by rewrite (mergeFreeBlocks_loop_id rest a0 b0).
Qed.

(** X8. Releasing a block between two free blocks.  On a list that covers
    the arena and has no two free neighbours, [deallocate] of the block at
    [a], whose left neighbour [bL] and right neighbour [bR] are free, leaves
    one block in the place of the three: it starts where [bL] started, is
    linked to the successor of [bR], and its size is the three sizes plus the
    two headers taken back. *)
Theorem release_between_free (st : state) (l1 l2 : list (Z * Block)) (aL a aR : Z)
    (bL b bR : Block) (fuel : nat) :
  inv st (l1 ++ (aL, bL) :: (a, b) :: (aR, bR) :: l2) →
  no_adjacent_free (l1 ++ (aL, bL) :: (a, b) :: (aR, bR) :: l2) →
  is_free bL = true → is_free bR = true →
  (length (l1 ++ (aL, bL) :: (a, b) :: (aR, bR) :: l2) <= fuel)%nat →
  ∃ st', deallocate fuel st (Some (a + sizeof_Block)) = Some st'
         ∧ is_list (memory st') (freeList st')
             (l1 ++ (aL, mkBlock (blk_size bL + sizeof_Block + blk_size b
                                  + sizeof_Block + blk_size bR)
                                 (blk_free bL) (blk_next bR)) :: l2).
Proof.
  intros Hinv Hnaf HL HR Hfuel.
  pose proof Hinv as [_ Hc].
  apply tiles_app in Hc as (mid & Ht1 & Ht2). simpl in Ht2.
  destruct Ht2 as (-> & HbL & -> & Hb & -> & HbR & Ht2).
  pose proof (tiles_bounds _ _ _ Ht1) as (Hlo & _).
  pose proof (tiles_bounds _ _ _ Ht2) as (Hhi & _).
  change (l1 ++ (mid, bL) :: (mid + sizeof_Block + blk_size bL, b) :: ?t)
    with (l1 ++ [(mid, bL)] ++ (mid + sizeof_Block + blk_size bL, b) :: t) in Hinv, Hfuel.
  rewrite app_assoc in Hinv, Hfuel.
  destruct (deallocate_block st _ _ b _ fuel Hinv Hfuel) as (st' & Hrun & [Hl' _]).
  exists st'. split; [done|].
  rewrite <- app_assoc in Hl'. simpl in Hl'.
  rewrite merge_blocks_prefix in Hl'.
  2:{ by apply naf_prefix_cons in Hnaf. }
  rewrite merge_from_absorb in Hl' by done.
  rewrite merge_from_absorb in Hl' by (done || exact HL).
  cbn [blk_size blk_free blk_next] in Hl'.
  rewrite (to_int_small (blk_size bL + _)) in Hl' by (unfold MEMORY_SIZE in *; lia).
  rewrite to_int_small in Hl' by (unfold MEMORY_SIZE in *; lia).
  rewrite merge_from_id in Hl'.
  - replace (blk_size bL + (sizeof_Block + blk_size b) + (sizeof_Block + blk_size bR))
      with (blk_size bL + sizeof_Block + blk_size b + sizeof_Block + blk_size bR)
      in Hl' by lia.
    done.
  - apply naf_suffix in Hnaf. destruct Hnaf as (_ & _ & Hnaf).
    apply (naf_replace [] _ bR); [|done]. unfold is_free in *. simpl.
    by rewrite HL, HR.
Qed.

(** X9. Releasing a block whose left neighbour alone is free.  The free
    block [bL] on the left takes the released block over: one block stands in
    the place of the two, with the size of both plus one header, linked to
    what followed the released block. *)
Theorem release_after_free (st : state) (l1 l2 : list (Z * Block)) (aL a : Z)
    (bL b : Block) (fuel : nat) :
  inv st (l1 ++ (aL, bL) :: (a, b) :: l2) →
  no_adjacent_free (l1 ++ (aL, bL) :: (a, b) :: l2) →
  is_free bL = true →
  (∀ y, head l2 = Some y → is_free (snd y) = false) →
  (length (l1 ++ (aL, bL) :: (a, b) :: l2) <= fuel)%nat →
  ∃ st', deallocate fuel st (Some (a + sizeof_Block)) = Some st'
         ∧ is_list (memory st') (freeList st')
             (l1 ++ (aL, mkBlock (blk_size bL + sizeof_Block + blk_size b)
                                 (blk_free bL) (blk_next b)) :: l2).
Proof.
  intros Hinv Hnaf HL Hhead Hfuel.
  pose proof Hinv as [_ Hc].
  apply tiles_app in Hc as (mid & Ht1 & Ht2). simpl in Ht2.
  destruct Ht2 as (-> & HbL & -> & Hb & Ht2).
  pose proof (tiles_bounds _ _ _ Ht1) as (Hlo & _).
  pose proof (tiles_bounds _ _ _ Ht2) as (Hhi & _).
  change (l1 ++ (mid, bL) :: (mid + sizeof_Block + blk_size bL, b) :: ?t)
    with (l1 ++ [(mid, bL)] ++ (mid + sizeof_Block + blk_size bL, b) :: t) in Hinv, Hfuel.
  rewrite app_assoc in Hinv, Hfuel.
  destruct (deallocate_block st _ _ b _ fuel Hinv Hfuel) as (st' & Hrun & [Hl' _]).
  exists st'. split; [done|].
  rewrite <- app_assoc in Hl'. simpl in Hl'.
  rewrite merge_blocks_prefix in Hl' by (by apply naf_prefix_cons in Hnaf).
  rewrite merge_from_absorb in Hl' by done.
  cbn [blk_size blk_free blk_next] in Hl'.
  rewrite to_int_small in Hl' by (unfold MEMORY_SIZE in *; lia).
  rewrite merge_from_id in Hl'.
  - by replace (blk_size bL + (sizeof_Block + blk_size b))
      with (blk_size bL + sizeof_Block + blk_size b) in Hl' by lia.
  - apply naf_cons. split.
    + intros y Hy. rewrite (Hhead y Hy). apply andb_false_r.
    + apply naf_suffix in Hnaf. apply naf_cons in Hnaf as (_ & Hnaf).
      by apply naf_cons in Hnaf as (_ & Hnaf).
Qed.

(** X10. Releasing a block whose right neighbour alone is free.  The
    released block takes the free block [bR] on its right over: it keeps its
    offset, gets the size of both plus one header and is linked to what
    followed [bR]. *)
Theorem release_before_free (st : state) (l1 l2 : list (Z * Block)) (a aR : Z)
    (b bR : Block) (fuel : nat) :
  inv st (l1 ++ (a, b) :: (aR, bR) :: l2) →
  no_adjacent_free (l1 ++ (a, b) :: (aR, bR) :: l2) →
  is_free bR = true →
  (∀ x, last l1 = Some x → is_free (snd x) = false) →
  (length (l1 ++ (a, b) :: (aR, bR) :: l2) <= fuel)%nat →
  ∃ st', deallocate fuel st (Some (a + sizeof_Block)) = Some st'
         ∧ is_list (memory st') (freeList st')
             (l1 ++ (a, mkBlock (blk_size b + sizeof_Block + blk_size bR) 1
                                (blk_next bR)) :: l2).
Proof.
  intros Hinv Hnaf HR Hlast Hfuel.
  pose proof Hinv as [_ Hc].
  apply tiles_app in Hc as (mid & Ht1 & Ht2). simpl in Ht2.
  destruct Ht2 as (-> & Hb & -> & HbR & Ht2).
  pose proof (tiles_bounds _ _ _ Ht1) as (Hlo & _).
  pose proof (tiles_bounds _ _ _ Ht2) as (Hhi & _).
  destruct (deallocate_block st _ _ b _ fuel Hinv Hfuel) as (st' & Hrun & [Hl' _]).
  exists st'. split; [done|].
  rewrite merge_blocks_prefix in Hl'.
  2:{ apply naf_app. split; [by apply naf_prefix in Hnaf|]. split; [done|].
      intros x y Hx [= <-]. by rewrite (Hlast x Hx). }
  rewrite merge_from_absorb in Hl' by done.
  cbn [blk_size blk_free blk_next] in Hl'.
  rewrite to_int_small in Hl' by (unfold MEMORY_SIZE in *; lia).
  rewrite merge_from_id in Hl'.
  - by replace (blk_size b + (sizeof_Block + blk_size bR))
      with (blk_size b + sizeof_Block + blk_size bR) in Hl' by lia.
  - apply naf_suffix in Hnaf. destruct Hnaf as (_ & Hnaf).
    by apply (naf_replace [] _ bR).
Qed.

(** X11. The coalescing pass writes nothing when there is nothing to merge:
    on a finite list without two free neighbours [mergeFreeBlocks] returns
    the state it was given. *)
Theorem mergeFreeBlocks_nothing_to_merge (st : state) (l : list (Z * Block))
    (fuel : nat) :
  is_list (memory st) (freeList st) l → no_adjacent_free l →
  (length l <= fuel)%nat →
  mergeFreeBlocks fuel st = Some st.
Proof.
  intros Hl Hnaf Hfuel. unfold mergeFreeBlocks.
  destruct l as [|[a b] rest].
  - simpl in Hl. rewrite Hl, mergeFreeBlocks_loop_null. by destruct st.
  - destruct Hl as (Hhd & Hb & Hrest). rewrite Hhd. simpl in Hfuel.
    rewrite (mergeFreeBlocks_loop_id rest a b); try done; [|lia].
    rewrite <- Hhd. by destruct st.
Qed.

(** *** Theorems on [allocate] *)

(** X12. [allocate] fails for no other reason than a bad size or a list
    without a fitting block.  On a list that covers the arena the call
    returns null exactly when the size is not positive, exceeds
    [MEMORY_SIZE], or no block is both free and large enough; and when a
    request of a positive size fails, every larger request fails on that
    state too. *)
Theorem allocate_fails_iff (st : state) (l : list (Z * Block)) (sz : Z) (fuel : nat) :
  inv st l → (length l <= fuel)%nat →
  ((∃ st', allocate fuel st sz = Some (st', None))
   ↔ (sz <= 0 ∨ MEMORY_SIZE < sz ∨ none_fits sz l))
  ∧ (∀ sz', 0 < sz <= sz' → (∃ st', allocate fuel st sz = Some (st', None)) →
            allocate fuel st sz' = Some (st, None)).
Proof.
  intros Hinv Hfuel.
  assert (Hiff : (∃ st', allocate fuel st sz = Some (st', None))
                 ↔ (sz <= 0 ∨ MEMORY_SIZE < sz ∨ none_fits sz l)).
  { split.
    - intros (st' & Hrun).
      destruct (size_cases sz) as [Hbad|Hsz]; [tauto|].
      destruct (first_fit_cases sz l) as [Hno|(l1 & a & b & l2 & -> & Hno & Hfit)]; [tauto|].
      destruct (allocate_at st l1 a b l2 sz fuel) as (st1 & Hrun1 & _); try done.
      { rewrite length_app in Hfuel. simpl in Hfuel. lia. }
      rewrite Hrun1 in Hrun. done.
    - intros Hcases. exists st.
      destruct (size_cases sz) as [Hbad|Hsz]; [by apply allocate_invalid|].
      apply (allocate_none st l); try done.
      destruct Hcases as [?|[?|?]]; [lia|lia|done]. }
  split; [exact Hiff|].
  intros sz' Hsz' Hfail. apply Hiff in Hfail.
  destruct (size_cases sz') as [Hbad|Hok]; [by apply allocate_invalid|].
  apply (allocate_none st l); try done.
  destruct Hfail as [?|[?|Hno]]; [lia|lia|].
  unfold none_fits in *. eapply Forall_impl; [exact Hno|].
  intros [a b]. unfold fits. simpl. intros Hf.
  apply andb_false_iff in Hf as [Hf|Hf]; apply andb_false_iff; [by left|right].
  apply Z.leb_gt in Hf. apply Z.leb_gt. lia.
Qed.

(** *** The driver *)

Lemma allocated_blocks_split sz a b :
  sz + sizeof_Block < blk_size b →
  allocated_blocks sz a b
  = [ (a, mkBlock sz 0 (Some (a + sizeof_Block + sz)));
      (a + sizeof_Block + sz, mkBlock (blk_size b - sz - sizeof_Block) 1 (blk_next b)) ].
Proof.
  intros Hlt. unfold allocated_blocks.
  replace (blk_size b >? sz + sizeof_Block) with true; [done|].
  symmetry. rewrite Z.gtb_ltb. by apply Z.ltb_lt.
Qed.

Lemma fits_intro sz b : is_free b = true → sz <= blk_size b → fits sz b = true.
Proof. intros Hf Hle. unfold fits. rewrite Hf. by apply Z.leb_le. Qed.

Lemma fits_small sz b : blk_size b < sz → fits sz b = false.
Proof. intros Hlt. unfold fits. apply andb_false_iff. right. by apply Z.leb_gt. Qed.

(** X13. What [main] prints.  Whenever the header is small enough for the
    first three requests to split their block
    ([4 * sizeof_Block + 128 + 1024 + 4096 < MEMORY_SIZE]), the three
    requests and the request of 512 bytes succeed, the last request, of
    100000 bytes, fails, and [main] prints the same six lines and returns
    0. *)
Theorem main_output (fuel : nat) :
  4 * sizeof_Block + 128 + 1024 + 4096 < MEMORY_SIZE → (5 <= fuel)%nat →
  main fuel
  = Some ([ "mem[0] allocated 128 bytes"; "mem[1] allocated 1024 bytes";
            "mem[2] allocated 4096 bytes"; "mem[1] deallocated";
            "mem[1] re-allocated 512 bytes";
            "Failed to allocate max memory (100000 bytes)" ], 0).
Proof.
  intros HH Hfuel. unfold main.
  (* allocate(128) *)
  rewrite allocate_lazy by (done || unfold MEMORY_SIZE; lia).
  destruct (allocate_at (initialize fresh) [] 0 _ [] 128 fuel (initialize_inv fresh))
    as (st1 & -> & Hinv1);
    [unfold MEMORY_SIZE; lia|constructor
    |apply fits_intro; [done|simpl; unfold MEMORY_SIZE in *; lia]|simpl; lia|].
  rewrite allocated_blocks_split in Hinv1 by (simpl; unfold MEMORY_SIZE in *; lia).
  cbn -[allocate deallocate] in *.
  (* allocate(1024) *)
  destruct (allocate_at st1 [(_, _)] _ _ [] 1024 fuel Hinv1)
    as (st2 & -> & Hinv2);
    [unfold MEMORY_SIZE; lia|by repeat constructor
    |apply fits_intro; [done|simpl; unfold MEMORY_SIZE in *; lia]|simpl; lia|].
  rewrite allocated_blocks_split in Hinv2 by (simpl; unfold MEMORY_SIZE in *; lia).
  cbn -[allocate deallocate] in *.
  (* allocate(4096) *)
  destruct (allocate_at st2 [(_, _); (_, _)] _ _ [] 4096 fuel Hinv2)
    as (st3 & -> & Hinv3);
    [unfold MEMORY_SIZE; lia|by repeat constructor
    |apply fits_intro; [done|simpl; unfold MEMORY_SIZE in *; lia]|simpl; lia|].
  rewrite allocated_blocks_split in Hinv3 by (simpl; unfold MEMORY_SIZE in *; lia).
  cbn -[allocate deallocate] in *.
  (* deallocate(mem[1]) *)
  destruct (deallocate_block st3 [(_, _)] _ _ [(_, _); (_, _)] fuel Hinv3)
    as (st4 & -> & Hinv4); [simpl; lia|].
  cbn -[allocate deallocate] in *.
  (* allocate(512) *)
  destruct (allocate_at st4 [(_, _)] _ _ [(_, _); (_, _)] 512 fuel Hinv4)
    as (st5 & -> & Hinv5);
    [unfold MEMORY_SIZE; lia|by repeat constructor|done|simpl; lia|].
  cbn -[allocate deallocate allocated_blocks] in *.
  (* allocate(100000) *)
  rewrite (allocate_none st5 _ 100000 fuel Hinv5); [done|unfold MEMORY_SIZE; lia| |].
  - apply Forall_cons. split; [done|]. apply Forall_app. split.
    + unfold allocated_blocks. destruct (_ >? _); repeat (apply Forall_cons; split);
        try done; try (apply fits_small; simpl; lia). 
    + apply Forall_cons. split; [done|]. apply Forall_cons. split; [|done].
      apply fits_small. simpl. unfold MEMORY_SIZE in *. lia.
  - rewrite length_cons, length_app. unfold allocated_blocks.
    destruct (_ >? _); simpl; lia.
Qed.

(** ** The claims on sequences of calls, on [deallocate] and on frames *)

Lemma allocations_app cs cs' : allocations (cs ++ cs') = (allocations cs + allocations cs')%nat.
Proof.
  induction cs as [|[sz|ptr] cs IH]; simpl; [done| |done]. by rewrite IH.
Qed.

(** A list that tiles a range keeps its headers apart. *)
Lemma tiles_apart lo l hi : tiles lo l hi → apart l.
Proof.
  intros Ht a a' ([a1 b1] & <- & Hin)%in_map_iff ([a2 b2] & <- & Hin')%in_map_iff Hne.
  simpl in *.
  destruct (tiles_disjoint _ _ _ (a1, b1) (a2, b2) Ht Hin Hin') as [Hd|Hd].
  - intros [= -> ->]. done.
  - destruct (tiles_bounds _ _ _ Ht) as (_ & Hb). specialize (Hb _ Hin). simpl in *. lia.
  - destruct (tiles_bounds _ _ _ Ht) as (_ & Hb). specialize (Hb _ Hin'). simpl in *. lia.
Qed.

(** C1. Coverage invariant.  Every sequence of calls of [allocate] and
    [deallocate], started on the untouched arena, in which each call of
    [deallocate] gets the null pointer or the address of a block of the
    list, runs to completion when the loops are given one iteration per call
    of the sequence; and once a call has got past the size check of
    [allocate] (which creates the list), the blocks reachable from
    [freeList] lie end to end from offset 0 to offset [MEMORY_SIZE]: each
    block takes [sizeof_Block] bytes plus its [size], the next header starts
    where the payload ends, the last block ends at [MEMORY_SIZE], and so
    every byte of the arena belongs to exactly one block.  Before that there
    is no list.  The sequence is arbitrary, so the statement holds after
    each of its prefixes, that is, at every point between two calls. *)
Theorem coverage_invariant (cs : list call) (fuel : nat) :
  (length cs <= fuel)%nat → respects fuel fresh cs →
  ∃ st, run fuel fresh cs = Some st
        ∧ if existsb initializes cs
          then ∃ l, is_list (memory st) (freeList st) l ∧ covers l ∧ partitions l
          else freeList st = None.
Proof.
  intros Hfuel _.
  destruct (run_run_inv cs 0 false fresh fuel) as (st & Hrun & Hinv); [done|lia|].
  exists st. split; [done|]. simpl in Hinv.
  destruct (existsb initializes cs); simpl in *; [|done].
  destruct Hinv as (l & [Hl Hc] & _). exists l.
  split; [done|]. split; [done|]. by apply covers_partitions.
Qed.

(** C4. No two neighbours are free after [deallocate].  First, on every
    state whose list is finite and keeps its headers apart, whatever the
    flags of its blocks (pairs of free neighbours anywhere in the list
    included), the call on the address of a block of the list returns
    within one loop iteration per block and leaves the list that the pass
    computes from the blocks once that block is marked free, a list in which
    no two consecutive blocks are both free.  Second, after every sequence
    of calls on the untouched arena that respects the contract of
    [deallocate] and ends with a call of [deallocate], on a block or on the
    null pointer, no two consecutive blocks of the list are both free. *)
Theorem no_adjacent_free_after_deallocate :
  (∀ (st : state) (l : list (Z * Block)) (p : Z) (fuel : nat),
     is_list (memory st) (freeList st) l → apart l →
     In (p - sizeof_Block) (offsets l) → (length l <= fuel)%nat →
     ∃ st' l', deallocate fuel st (Some p) = Some st'
               ∧ is_list (memory st') (freeList st') l'
               ∧ l' = merge_blocks (mark_free (p - sizeof_Block) l)
               ∧ no_adjacent_free l')
  ∧ (∀ (cs : list call) (ptr : option Z) (fuel : nat),
       (allocations cs < fuel)%nat →
       respects fuel fresh (cs ++ [Deallocate ptr]) →
       ∃ st l', run fuel fresh (cs ++ [Deallocate ptr]) = Some st
                ∧ is_list (memory st) (freeList st) l'
                ∧ no_adjacent_free l').
Proof.
  split.
  - intros st l p fuel Hl _ _ Hfuel.
    destruct (deallocate_blocks st l p fuel Hl Hfuel) as (st' & Hrun & _ & Hl').
    exists st', (merge_blocks (mark_free (p - sizeof_Block) l)).
    split; [done|]. split; [done|]. split; [done|].
    destruct (mark_free (p - sizeof_Block) l) as [|[a b] rest]; simpl; [done|].
    apply merge_from_no_adjacent_free.
  - intros cs ptr fuel Hfuel _.
    destruct (run_reach_inv (cs ++ [Deallocate ptr]) 0 false fresh fuel)
      as (st & Hrun & Hinv); [done| |].
    { rewrite allocations_app. simpl. lia. }
    exists st. simpl in Hinv.
    destruct (existsb initializes (cs ++ [Deallocate ptr])); simpl in Hinv.
    + destruct Hinv as (l & ((Hl & _) & Hnaf & _) & _). exists l. auto.
    + exists []. split; [done|]. split; [exact Hinv|done].
Qed.

(** C7. Frame of [allocate].  On a list [l] that covers the arena, a call
    that returns the address [p] leaves a list [l'] that covers the arena
    and [freeList] as it was.  Every block of [l] other than the chosen one,
    at [p - sizeof_Block], is a block of [l'] with the same header (size,
    free flag, next link), the one the buffer still holds at its offset.
    The blocks of [l'] that are not blocks of [l] are at most two: the
    chosen block and, after a split, the new block at [p + sz].  Without a
    split ([size <= sz + sizeof_Block] in the chosen block) the chosen block
    keeps its size and its next link and no other block of [l'] is new. *)
Theorem allocate_frame (st st' : state) (l : list (Z * Block)) (sz p : Z) (fuel : nat) :
  inv st l → (length l <= fuel)%nat →
  allocate fuel st sz = Some (st', Some p) →
  ∃ l', inv st' l'
        ∧ freeList st' = freeList st
        ∧ (∀ a b, In (a, b) l → a ≠ p - sizeof_Block →
                  In (a, b) l' ∧ load (memory st') a = b)
        ∧ (∀ a b, In (a, b) l' → a ≠ p - sizeof_Block → a ≠ p + sz → In (a, b) l)
        ∧ (length l <= length l' <= S (length l))%nat
        ∧ (∀ b, In (p - sizeof_Block, b) l → blk_size b <= sz + sizeof_Block →
                In (p - sizeof_Block, mkBlock (blk_size b) 0 (blk_next b)) l'
                ∧ length l' = length l
                ∧ ∀ a b', In (a, b') l' → a ≠ p - sizeof_Block → In (a, b') l).
Proof.
  intros Hinv Hfuel Hrun.
  destruct (size_cases sz) as [Hbad|Hsz].
  { by rewrite allocate_invalid in Hrun. }
  destruct (first_fit_cases sz l) as [Hno|(l1 & a & b & l2 & -> & Hno & Hfit)].
  { by rewrite (allocate_none st _ sz fuel Hinv) in Hrun. }
  rewrite length_app in Hfuel. simpl in Hfuel.
  destruct (allocate_at st l1 a b l2 sz fuel) as (st1 & Hrun1 & Hinv1); try done; [lia|].
  assert (Hhd : freeList st1 = freeList st).
  { by rewrite (inv_head _ _ Hinv), (inv_head _ _ Hinv1). }
  rewrite Hrun1 in Hrun. injection Hrun as -> <-.
  replace (a + sizeof_Block - sizeof_Block) with a by lia.
  exists (l1 ++ allocated_blocks sz a b ++ l2).
  split; [done|]. split; [done|].
  assert (Hkeep : ∀ a' b', In (a', b') (l1 ++ (a, b) :: l2) → a' ≠ a →
                           In (a', b') (l1 ++ allocated_blocks sz a b ++ l2)).
  { intros a' b' Hin Hne. apply in_app_iff in Hin as [Hin|[[= -> ->]|Hin]]; [|done|].
    - apply in_app_iff. by left.
    - apply in_app_iff. right. apply in_app_iff. by right. }
  split; [|split; [|split]].
  - intros a' b' Hin Hne. split; [by apply Hkeep|].
    destruct Hinv1 as [Hl1 _]. eapply is_list_In_load; [exact Hl1|by apply Hkeep].
  - intros a' b' Hin Hne1 Hne2.
    apply in_app_iff in Hin as [Hin|Hin]; [apply in_app_iff; by left|].
    apply in_app_iff in Hin as [Hin|Hin]; [|apply in_app_iff; right; by right].
    unfold allocated_blocks in Hin. exfalso.
    destruct (_ >? _); simpl in Hin; destruct Hin as [[= <- _]|Hin]; try done.
    destruct Hin as [[= <- _]|[]]. apply Hne2. lia.
  - rewrite !length_app. unfold allocated_blocks. destruct (_ >? _); simpl; lia.
  - intros b0 Hin Hcmp.
    assert (b0 = b) as ->.
    { destruct Hinv as [Hl _]. rewrite <- (is_list_In_load _ _ _ _ _ Hl Hin).
      apply (is_list_In_load _ _ _ _ _ Hl). apply in_app_iff. simpl. auto. }
    unfold allocated_blocks.
    replace (blk_size b >? sz + sizeof_Block) with false.
    2:{ symmetry. rewrite Z.gtb_ltb. by apply Z.ltb_ge. }
    split; [apply in_app_iff; right; by left|]. split.
    + rewrite !length_app. simpl. lia.
    + intros a' b' Hin' Hne.
      apply in_app_iff in Hin' as [Hin'|[[= <- _]|Hin']]; [|done|];
        apply in_app_iff; simpl; auto.
Qed.

(** C8. Termination.  On a state whose list is finite (it ends in the null
    pointer after the blocks [l]) and keeps its headers apart, [allocate],
    [deallocate] of the null pointer or of the address of a block of the
    list, and the coalescing pass return within one loop iteration per block
    (and one more for a list created by the call).  A merging iteration
    leaves the cursor in place and takes one block off the list. *)
Theorem operations_terminate (st : state) (l : list (Z * Block)) (fuel : nat) :
  is_list (memory st) (freeList st) l → apart l → (length l < fuel)%nat →
  (∀ sz, ∃ st' r, allocate fuel st sz = Some (st', r))
  ∧ (∀ ptr, contract_ptr l ptr → ∃ st', deallocate fuel st ptr = Some st')
  ∧ (∃ st', mergeFreeBlocks fuel st = Some st')
  ∧ (∀ l1 a b a' b' rest,
       l = l1 ++ (a, b) :: (a', b') :: rest →
       ∃ b2, is_list (absorb (memory st) a a') (freeList st) (l1 ++ (a, b2) :: rest)).
Proof.
  intros Hl _ Hfuel. split; [|split; [|split]].
  - intros sz. by eapply allocate_terminates.
  - intros [p|] _; [|by exists st].
    destruct (deallocate_blocks st l p fuel Hl) as (st' & -> & _); [lia|eauto].
  - unfold mergeFreeBlocks.
    pose proof (is_list_NoDup _ _ _ Hl) as Hnd.
    destruct l as [|[a b] rest]; simpl in *.
    + rewrite Hl, mergeFreeBlocks_loop_null. eauto.
    + destruct Hl as (Hhd & Hb & Hl). rewrite Hhd.
      destruct (mergeFreeBlocks_loop_blocks rest a b _ fuel Hb Hl Hnd)
        as (m' & -> & _); [lia|eauto].
  - intros l1 a b a' b' rest ->. eexists. by apply absorb_shortens.
Qed.

End Allocator.

(** ** The scenarios of [main] at [sizeof_Block = 16] *)

Example first_request :
  blocks_after 16 6 [Allocate 128]
  = Some [(0, mkBlock 128 0 (Some 144)); (144, mkBlock 102240 1 None)].
Proof. vm_compute. reflexivity. Qed.

Example three_requests :
  blocks_after 16 6 [Allocate 128; Allocate 1024; Allocate 4096]
  = Some [(0, mkBlock 128 0 (Some 144)); (144, mkBlock 1024 0 (Some 1184));
          (1184, mkBlock 4096 0 (Some 5296)); (5296, mkBlock 97088 1 None)].
Proof. vm_compute. reflexivity. Qed.

Example reaches_scenario_3 :
  run 16 6 fresh [Allocate 128; Allocate 1024; Allocate 4096; Deallocate (Some 160)]
  = Some scenario_3.
Proof. vm_compute. reflexivity. Qed.

Example reaches_scenario_4 :
  allocate 16 6 scenario_3 512 = Some (scenario_4, Some 160).
Proof. vm_compute. reflexivity. Qed.

Example release_second :
  blocks_after 16 6 [Allocate 128; Allocate 1024; Allocate 4096; Deallocate (Some 160)]
  = Some scenario_3_blocks.
Proof. vm_compute. reflexivity. Qed.

Example reuse_released :
  blocks_after 16 6 [Allocate 128; Allocate 1024; Allocate 4096; Deallocate (Some 160);
                     Allocate 512]
  = Some [(0, mkBlock 128 0 (Some 144)); (144, mkBlock 512 0 (Some 672));
          (672, mkBlock 496 1 (Some 1184)); (1184, mkBlock 4096 0 (Some 5296));
          (5296, mkBlock 97088 1 None)].
Proof. vm_compute. reflexivity. Qed.

Example last_request_of_main_fails :
  allocate 16 6 scenario_4 100000 = Some (scenario_4, None).
Proof. vm_compute. reflexivity. Qed.

Example release_between_free_neighbours :
  blocks_after 16 6 [Allocate 128; Allocate 1024; Allocate 4096; Deallocate (Some 16);
                     Deallocate (Some 1200); Deallocate (Some 160)]
  = Some [(0, mkBlock 102384 1 None)].
Proof. vm_compute. reflexivity. Qed.

(** ** The claims at [sizeof_Block = 16] *)

Lemma coverage_invariant_witness :
  (length main_calls <= 6)%nat
  ∧ respects 16 6 fresh main_calls
  ∧ ∃ st, run 16 6 fresh main_calls = Some st
          ∧ if existsb initializes main_calls
            then ∃ l, is_list (memory st) (freeList st) l ∧ covers 16 l ∧ partitions 16 l
            else freeList st = None.
Proof.
  assert (Hok : respects 16 6 fresh main_calls) by (vm_compute; intuition).
  split; [simpl; lia|]. split; [exact Hok|].
  apply (coverage_invariant 16); [unfold MEMORY_SIZE; lia|simpl; lia|exact Hok].
Defined.

Lemma first_fit_selection_witness :
  is_list (memory scenario_3) (freeList scenario_3) scenario_3_blocks
  ∧ ∃ st', allocate 16 4 scenario_3 512 = Some (st', Some (144 + 16))
           ∧ is_free (load (memory st') 144) = false
           ∧ allocate 16 2 scenario_3 512 = allocate 16 4 scenario_3 512.
Proof.
  assert (Hl : is_list (memory scenario_3) (freeList scenario_3) scenario_3_blocks)
    by (vm_compute; tauto).
  split; [exact Hl|].
  apply (first_fit_selection 16 ltac:(unfold MEMORY_SIZE; lia) scenario_3
           [(0, mkBlock 128 0 (Some 144))]
           [(1184, mkBlock 4096 0 (Some 5296)); (5296, mkBlock 97088 1 None)]
           144 (mkBlock 1024 1 (Some 1184)) 512 4 2).
  - exact Hl.
  - unfold MEMORY_SIZE; lia.
  - repeat constructor.
  - reflexivity.
  - simpl; lia.
  - simpl; lia.
Defined.

Lemma split_postcondition_witness :
  inv 16 scenario_3 scenario_3_blocks
  ∧ ∃ st', allocate 16 4 scenario_3 512 = Some (st', Some (144 + 16))
           ∧ freeList st' = freeList scenario_3
           ∧ (512 + 16 < 1024 →
                is_list (memory st') (freeList st')
                  ([(0, mkBlock 128 0 (Some 144))]
                   ++ (144, mkBlock 512 0 (Some (144 + 16 + 512)))
                   :: (144 + 16 + 512, mkBlock (1024 - 512 - 16) 1 (Some 1184))
                   :: [(1184, mkBlock 4096 0 (Some 5296)); (5296, mkBlock 97088 1 None)]))
           ∧ (1024 <= 512 + 16 →
                is_list (memory st') (freeList st')
                  ([(0, mkBlock 128 0 (Some 144))]
                   ++ (144, mkBlock 1024 0 (Some 1184))
                   :: [(1184, mkBlock 4096 0 (Some 5296)); (5296, mkBlock 97088 1 None)])).
Proof.
  assert (Hinv : inv 16 scenario_3 scenario_3_blocks).
  { split; [vm_compute; tauto|]. unfold covers, MEMORY_SIZE. simpl. lia. }
  split; [exact Hinv|].
  apply (split_postcondition 16 ltac:(unfold MEMORY_SIZE; lia) scenario_3
           [(0, mkBlock 128 0 (Some 144))]
           [(1184, mkBlock 4096 0 (Some 5296)); (5296, mkBlock 97088 1 None)]
           144 (mkBlock 1024 1 (Some 1184)) 512 4).
  - exact Hinv.
  - unfold MEMORY_SIZE; lia.
  - repeat constructor.
  - reflexivity.
  - simpl; lia.
Defined.

Lemma no_adjacent_free_after_deallocate_witness :
  (is_list (memory left_free) (freeList left_free) left_free_blocks
   ∧ apart 16 left_free_blocks
   ∧ In (160 - 16) (offsets left_free_blocks)
   ∧ ∃ st' l', deallocate 16 4 left_free (Some 160) = Some st'
               ∧ is_list (memory st') (freeList st') l'
               ∧ l' = merge_blocks 16 (mark_free (160 - 16) left_free_blocks)
               ∧ no_adjacent_free l')
  ∧ (respects 16 4 fresh ([Allocate 128; Allocate 1024; Allocate 4096]
                          ++ [Deallocate (Some 160)])
     ∧ ∃ st l', run 16 4 fresh ([Allocate 128; Allocate 1024; Allocate 4096]
                                ++ [Deallocate (Some 160)]) = Some st
                ∧ is_list (memory st) (freeList st) l'
                ∧ no_adjacent_free l').
Proof.
  destruct (no_adjacent_free_after_deallocate 16 ltac:(unfold MEMORY_SIZE; lia))
    as (Hstate & Hreach).
  assert (Hl : is_list (memory left_free) (freeList left_free) left_free_blocks)
    by (vm_compute; tauto).
  assert (Hap : apart 16 left_free_blocks).
  { intros a a' Ha Ha' Hne. simpl in Ha, Ha'. lia. }
  assert (Hin : In (160 - 16) (offsets left_free_blocks)) by (simpl; lia).
  assert (Hok : respects 16 4 fresh ([Allocate 128; Allocate 1024; Allocate 4096]
                                     ++ [Deallocate (Some 160)]))
    by (vm_compute; intuition).
  split.
  - split; [exact Hl|]. split; [exact Hap|]. split; [exact Hin|].
    apply (Hstate left_free left_free_blocks 160 4%nat Hl Hap Hin). simpl; lia.
  - split; [exact Hok|].
    apply (Hreach [Allocate 128; Allocate 1024; Allocate 4096] (Some 160) 4%nat);
      [simpl; lia|exact Hok].
Defined.

Lemma round_trip_witness :
  0 < 100000 <= MEMORY_SIZE
  ∧ ∃ st1 r,
      allocate 16 2 fresh 100000 = Some (st1, r)
      ∧ (r ≠ None ↔ 100000 <= MEMORY_SIZE - 16)
      ∧ (∀ p, r = Some p →
           p = 16
           ∧ ∃ st2, deallocate 16 2 st1 (Some p) = Some st2
                    ∧ is_list (memory st2) (freeList st2)
                        [(0, mkBlock (MEMORY_SIZE - 16) 1 None)])
      ∧ is_list (memory (initialize 16 fresh)) (freeList (initialize 16 fresh))
          [(0, mkBlock (MEMORY_SIZE - 16) 1 None)].
Proof.
  split; [unfold MEMORY_SIZE; lia|].
  apply (round_trip 16); [unfold MEMORY_SIZE; lia|unfold MEMORY_SIZE; lia|lia].
Defined.

Lemma allocate_failure_witness :
  allocate 16 0 scenario_3 (-1) = Some (scenario_3, None)
  ∧ allocate 16 4 scenario_3 100000 = Some (scenario_3, None)
  ∧ ∃ st' r, allocate 16 5 scenario_3 4000 = Some (st', r).
Proof.
  destruct (allocate_failure 16 ltac:(unfold MEMORY_SIZE; lia))
    as (Hsize & _ & Hnone & Hsome).
  assert (Hl : is_list (memory scenario_3) (freeList scenario_3) scenario_3_blocks)
    by (vm_compute; tauto).
  split; [|split].
  - apply Hsize. lia.
  - apply (Hnone scenario_3 scenario_3_blocks 4%nat 100000).
    + exact Hl.
    + discriminate.
    + unfold MEMORY_SIZE; lia.
    + repeat constructor.
    + simpl; lia.
  - apply (Hsome scenario_3 scenario_3_blocks 5%nat 4000).
    + exact Hl.
    + simpl; lia.
Defined.

Lemma allocate_frame_witness :
  inv 16 scenario_3 scenario_3_blocks
  ∧ allocate 16 4 scenario_3 512 = Some (scenario_4, Some 160)
  ∧ ∃ l', inv 16 scenario_4 l'
          ∧ freeList scenario_4 = freeList scenario_3
          ∧ (∀ a b, In (a, b) scenario_3_blocks → a ≠ 160 - 16 →
                    In (a, b) l' ∧ load (memory scenario_4) a = b)
          ∧ (∀ a b, In (a, b) l' → a ≠ 160 - 16 → a ≠ 160 + 512 →
                    In (a, b) scenario_3_blocks)
          ∧ (length scenario_3_blocks <= length l' <= S (length scenario_3_blocks))%nat
          ∧ (∀ b, In (160 - 16, b) scenario_3_blocks → blk_size b <= 512 + 16 →
                  In (160 - 16, mkBlock (blk_size b) 0 (blk_next b)) l'
                  ∧ length l' = length scenario_3_blocks
                  ∧ ∀ a b', In (a, b') l' → a ≠ 160 - 16 → In (a, b') scenario_3_blocks).
Proof.
  assert (Hinv : inv 16 scenario_3 scenario_3_blocks).
  { split; [vm_compute; tauto|]. unfold covers, MEMORY_SIZE. simpl. lia. }
  assert (Hrun : allocate 16 4 scenario_3 512 = Some (scenario_4, Some 160))
    by (vm_compute; reflexivity).
  split; [exact Hinv|]. split; [exact Hrun|].
  apply (allocate_frame 16 ltac:(unfold MEMORY_SIZE; lia)
           scenario_3 scenario_4 scenario_3_blocks 512 160 4).
  - exact Hinv.
  - simpl; lia.
  - exact Hrun.
Defined.

Lemma operations_terminate_witness :
  is_list (memory scenario_3) (freeList scenario_3) scenario_3_blocks
  ∧ apart 16 scenario_3_blocks
  ∧ contract_ptr 16 scenario_3_blocks (Some 1200)
  ∧ (∀ sz, ∃ st' r, allocate 16 5 scenario_3 sz = Some (st', r))
  ∧ (∃ st', deallocate 16 5 scenario_3 (Some 1200) = Some st')
  ∧ (∃ st', deallocate 16 5 scenario_3 None = Some st')
  ∧ (∃ st', mergeFreeBlocks 16 5 scenario_3 = Some st').
Proof.
  assert (Hl : is_list (memory scenario_3) (freeList scenario_3) scenario_3_blocks)
    by (vm_compute; tauto).
  assert (Hap : apart 16 scenario_3_blocks).
  { intros a a' Ha Ha' Hne. simpl in Ha, Ha'. lia. }
  assert (Hptr : contract_ptr 16 scenario_3_blocks (Some 1200)) by (simpl; lia).
  split; [exact Hl|]. split; [exact Hap|]. split; [exact Hptr|].
  destruct (operations_terminate 16 ltac:(unfold MEMORY_SIZE; lia)
              scenario_3 scenario_3_blocks 5 Hl Hap ltac:(simpl; lia))
    as (Halloc & Hdealloc & Hmerge & _).
  split; [exact Halloc|]. split; [exact (Hdealloc (Some 1200) Hptr)|].
  split; [exact (Hdealloc None I)|exact Hmerge].
Defined.

Lemma invalid_size_before_initialization_witness :
  allocate 16 1 fresh (MEMORY_SIZE + 1) = Some (fresh, None)
  ∧ ∃ st' r, allocate 16 1 fresh 102390 = Some (st', r)
             ∧ freeList st' = Some 0
             ∧ (MEMORY_SIZE - 16 < 102390 → r = None ∧ st' = initialize 16 fresh).
Proof.
  destruct (invalid_size_before_initialization 16 ltac:(unfold MEMORY_SIZE; lia))
    as (Hsize & _ & Hinit).
  split.
  - apply Hsize. lia.
  - apply (Hinit fresh 1%nat 102390); [reflexivity|unfold MEMORY_SIZE; lia|lia].
Defined.

(** ** The further theorems at [sizeof_Block = 16] *)

Example main_prints :
  main 16 5
  = Some ([ "mem[0] allocated 128 bytes"; "mem[1] allocated 1024 bytes";
            "mem[2] allocated 4096 bytes"; "mem[1] deallocated";
            "mem[1] re-allocated 512 bytes";
            "Failed to allocate max memory (100000 bytes)" ], 0).
Proof. vm_compute. reflexivity. Qed.

Example reaches_scenario_2 :
  blocks_after 16 6 [Allocate 128; Allocate 1024; Allocate 4096] = Some scenario_2_blocks.
Proof. vm_compute. reflexivity. Qed.

Example reaches_left_free :
  blocks_after 16 6 [Allocate 128; Allocate 1024; Allocate 4096; Deallocate (Some 16)]
  = Some left_free_blocks.
Proof. vm_compute. reflexivity. Qed.

Example reaches_sides_free :
  blocks_after 16 6 [Allocate 128; Allocate 1024; Allocate 4096; Deallocate (Some 16);
                     Deallocate (Some 1200)]
  = Some sides_free_blocks.
Proof. vm_compute. reflexivity. Qed.

Example reaches_scenario_5 :
  allocate 16 6 scenario_4 256 = Some (scenario_5, Some 688).
Proof. vm_compute. reflexivity. Qed.

Example release_without_list_breaks_contract :
  ¬ respects 16 6 fresh [Deallocate (Some 160)].
Proof. vm_compute. tauto. Qed.

Example release_inside_payload_breaks_contract :
  ¬ respects 16 6 scenario_3 [Deallocate (Some 164)].
Proof. vm_compute. intros [Hin _]. repeat destruct Hin as [Hin|Hin]; done. Qed.

Lemma reachable_no_adjacent_free_witness :
  (allocations main_calls < 6)%nat
  ∧ respects 16 6 fresh main_calls
  ∧ ∃ st, run 16 6 fresh main_calls = Some st
          ∧ if existsb initializes main_calls
            then ∃ l, is_list (memory st) (freeList st) l ∧ no_adjacent_free l
            else freeList st = None.
Proof.
  assert (Hok : respects 16 6 fresh main_calls) by (vm_compute; intuition).
  split; [simpl; lia|]. split; [exact Hok|].
  apply (reachable_no_adjacent_free 16); [unfold MEMORY_SIZE; lia|simpl; lia|exact Hok].
Defined.

Lemma reachable_block_bounds_witness :
  (allocations main_calls < 6)%nat
  ∧ respects 16 6 fresh main_calls
  ∧ ∃ st, run 16 6 fresh main_calls = Some st
          ∧ if existsb initializes main_calls
            then ∃ l, is_list (memory st) (freeList st) l
                      ∧ (1 <= length l <= S (allocations main_calls))%nat
                      ∧ ∀ a b, In (a, b) l →
                          (blk_free b = 0 ∨ blk_free b = 1)
                          ∧ 0 <= blk_size b <= MEMORY_SIZE - 16
            else freeList st = None.
Proof.
  assert (Hok : respects 16 6 fresh main_calls) by (vm_compute; intuition).
  split; [simpl; lia|]. split; [exact Hok|].
  apply (reachable_block_bounds 16); [unfold MEMORY_SIZE; lia|simpl; lia|exact Hok].
Defined.

Lemma allocation_valid_witness :
  inv 16 scenario_3 scenario_3_blocks
  ∧ allocate 16 4 scenario_3 512 = Some (scenario_4, Some 160)
  ∧ ∃ l' b b',
      inv 16 scenario_4 l'
      ∧ In (160 - 16, b) scenario_3_blocks ∧ is_free b = true
      ∧ In (160 - 16, b') l' ∧ is_free b' = false
      ∧ load (memory scenario_4) (160 - 16) = b'
      ∧ 0 < 512 <= blk_size b' ∧ blk_size b' <= blk_size b
      ∧ 16 <= 160 ∧ 160 + blk_size b' <= MEMORY_SIZE.
Proof.
  assert (Hinv : inv 16 scenario_3 scenario_3_blocks).
  { split; [vm_compute; tauto|]. unfold covers, MEMORY_SIZE. simpl. lia. }
  assert (Hrun : allocate 16 4 scenario_3 512 = Some (scenario_4, Some 160))
    by (vm_compute; reflexivity).
  split; [exact Hinv|]. split; [exact Hrun|].
  apply (allocation_valid 16 ltac:(unfold MEMORY_SIZE; lia)
           scenario_3 scenario_4 scenario_3_blocks 512 160 4).
  - exact Hinv.
  - simpl; lia.
  - exact Hrun.
Defined.

Lemma live_block_kept_witness :
  inv 16 scenario_3 scenario_3_blocks
  ∧ ∃ st' l',
      run 16 7 scenario_3 [Allocate 512; Deallocate (Some 160); Allocate 100000] = Some st'
      ∧ inv 16 st' l' ∧ In (1184, mkBlock 4096 0 (Some 5296)) l'
      ∧ load (memory st') 1184 = mkBlock 4096 0 (Some 5296).
Proof.
  assert (Hinv : inv 16 scenario_3 scenario_3_blocks).
  { split; [vm_compute; tauto|]. unfold covers, MEMORY_SIZE. simpl. lia. }
  split; [exact Hinv|].
  apply (live_block_kept 16 ltac:(unfold MEMORY_SIZE; lia) scenario_3 scenario_3_blocks).
  - exact Hinv.
  - simpl. tauto.
  - reflexivity.
  - repeat constructor; discriminate.
  - vm_compute; intuition.
  - simpl; lia.
Defined.

Lemma live_allocations_disjoint_witness :
  inv 16 scenario_3 scenario_3_blocks
  ∧ allocate 16 6 scenario_3 512 = Some (scenario_4, Some 160)
  ∧ run 16 6 scenario_4 [Allocate 100000] = Some scenario_4
  ∧ allocate 16 6 scenario_4 256 = Some (scenario_5, Some 688)
  ∧ (160 + 512 <= 688 ∨ 688 + 256 <= 160).
Proof.
  assert (Hinv : inv 16 scenario_3 scenario_3_blocks).
  { split; [vm_compute; tauto|]. unfold covers, MEMORY_SIZE. simpl. lia. }
  assert (Hrun1 : allocate 16 6 scenario_3 512 = Some (scenario_4, Some 160))
    by (vm_compute; reflexivity).
  assert (Hrun : run 16 6 scenario_4 [Allocate 100000] = Some scenario_4)
    by (vm_compute; reflexivity).
  assert (Hrun2 : allocate 16 6 scenario_4 256 = Some (scenario_5, Some 688))
    by (vm_compute; reflexivity).
  split; [exact Hinv|]. split; [exact Hrun1|]. split; [exact Hrun|]. split; [exact Hrun2|].
  apply (live_allocations_disjoint 16 ltac:(unfold MEMORY_SIZE; lia)
           scenario_3 scenario_4 scenario_4 scenario_5 scenario_3_blocks
           512 160 256 688 [Allocate 100000] 6).
  - exact Hinv.
  - simpl; lia.
  - exact Hrun1.
  - repeat constructor; discriminate.
  - vm_compute; intuition.
  - exact Hrun.
  - exact Hrun2.
Defined.

Lemma allocate_deallocate_restores_witness :
  good 16 scenario_3 scenario_3_blocks
  ∧ allocate 16 5 scenario_3 512 = Some (scenario_4, Some 160)
  ∧ ∃ st2, deallocate 16 5 scenario_4 (Some 160) = Some st2
           ∧ good 16 st2 scenario_3_blocks.
Proof.
  assert (Hgood : good 16 scenario_3 scenario_3_blocks).
  { split; [split; [vm_compute; tauto|unfold covers, MEMORY_SIZE; simpl; lia]|].
    split; [simpl; tauto|].
    repeat (apply Forall_cons; split; [simpl; lia|]). constructor. }
  assert (Hrun : allocate 16 5 scenario_3 512 = Some (scenario_4, Some 160))
    by (vm_compute; reflexivity).
  split; [exact Hgood|]. split; [exact Hrun|].
  apply (allocate_deallocate_restores 16 ltac:(unfold MEMORY_SIZE; lia)
           scenario_3 scenario_4 scenario_3_blocks 512 160 5).
  - exact Hgood.
  - simpl; lia.
  - exact Hrun.
Defined.

Lemma release_between_allocated_witness :
  inv 16 scenario_2 scenario_2_blocks
  ∧ deallocate 16 4 scenario_2 (Some (144 + 16))
    = Some (mkState (store_free (memory scenario_2) 144 1) (freeList scenario_2))
  ∧ is_list (store_free (memory scenario_2) 144 1) (freeList scenario_2)
      ([(0, mkBlock 128 0 (Some 144))]
       ++ (144, mkBlock 1024 1 (Some 1184))
       :: [(1184, mkBlock 4096 0 (Some 5296)); (5296, mkBlock 97088 1 None)]).
Proof.
  assert (Hinv : inv 16 scenario_2 scenario_2_blocks).
  { split; [vm_compute; tauto|]. unfold covers, MEMORY_SIZE. simpl. lia. }
  split; [exact Hinv|].
  apply (release_between_allocated 16 ltac:(unfold MEMORY_SIZE; lia) scenario_2
           [(0, mkBlock 128 0 (Some 144))]
           [(1184, mkBlock 4096 0 (Some 5296)); (5296, mkBlock 97088 1 None)]
           144 (mkBlock 1024 0 (Some 1184)) 4).
  - exact Hinv.
  - simpl. tauto.
  - simpl; lia.
Defined.

Lemma release_between_free_witness :
  inv 16 sides_free sides_free_blocks
  ∧ ∃ st', deallocate 16 3 sides_free (Some (144 + 16)) = Some st'
           ∧ is_list (memory st') (freeList st')
               ([] ++ (0, mkBlock (128 + 16 + 1024 + 16 + 101200) 1 None) :: []).
Proof.
  assert (Hinv : inv 16 sides_free sides_free_blocks).
  { split; [vm_compute; tauto|]. unfold covers, MEMORY_SIZE. simpl. lia. }
  split; [exact Hinv|].
  apply (release_between_free 16 ltac:(unfold MEMORY_SIZE; lia) sides_free [] []
           0 144 1184 (mkBlock 128 1 (Some 144)) (mkBlock 1024 0 (Some 1184))
           (mkBlock 101200 1 None) 3).
  - exact Hinv.
  - simpl. tauto.
  - reflexivity.
  - reflexivity.
  - simpl; lia.
Defined.

Lemma release_after_free_witness :
  inv 16 left_free left_free_blocks
  ∧ ∃ st', deallocate 16 4 left_free (Some (144 + 16)) = Some st'
           ∧ is_list (memory st') (freeList st')
               ([] ++ (0, mkBlock (128 + 16 + 1024) 1 (Some 1184))
                :: [(1184, mkBlock 4096 0 (Some 5296)); (5296, mkBlock 97088 1 None)]).
Proof.
  assert (Hinv : inv 16 left_free left_free_blocks).
  { split; [vm_compute; tauto|]. unfold covers, MEMORY_SIZE. simpl. lia. }
  split; [exact Hinv|].
  apply (release_after_free 16 ltac:(unfold MEMORY_SIZE; lia) left_free []
           [(1184, mkBlock 4096 0 (Some 5296)); (5296, mkBlock 97088 1 None)]
           0 144 (mkBlock 128 1 (Some 144)) (mkBlock 1024 0 (Some 1184)) 4).
  - exact Hinv.
  - simpl. tauto.
  - reflexivity.
  - intros y [= <-]. reflexivity.
  - simpl; lia.
Defined.

Lemma release_before_free_witness :
  inv 16 scenario_2 scenario_2_blocks
  ∧ ∃ st', deallocate 16 4 scenario_2 (Some (1184 + 16)) = Some st'
           ∧ is_list (memory st') (freeList st')
               ([(0, mkBlock 128 0 (Some 144)); (144, mkBlock 1024 0 (Some 1184))]
                ++ (1184, mkBlock (4096 + 16 + 97088) 1 None) :: []).
Proof.
  assert (Hinv : inv 16 scenario_2 scenario_2_blocks).
  { split; [vm_compute; tauto|]. unfold covers, MEMORY_SIZE. simpl. lia. }
  split; [exact Hinv|].
  apply (release_before_free 16 ltac:(unfold MEMORY_SIZE; lia) scenario_2
           [(0, mkBlock 128 0 (Some 144)); (144, mkBlock 1024 0 (Some 1184))] []
           1184 5296 (mkBlock 4096 0 (Some 5296)) (mkBlock 97088 1 None) 4).
  - exact Hinv.
  - simpl. tauto.
  - reflexivity.
  - intros x [= <-]. reflexivity.
  - simpl; lia.
Defined.

Lemma mergeFreeBlocks_nothing_to_merge_witness :
  is_list (memory scenario_3) (freeList scenario_3) scenario_3_blocks
  ∧ mergeFreeBlocks 16 4 scenario_3 = Some scenario_3.
Proof.
  assert (Hl : is_list (memory scenario_3) (freeList scenario_3) scenario_3_blocks)
    by (vm_compute; tauto).
  split; [exact Hl|].
  apply (mergeFreeBlocks_nothing_to_merge 16 scenario_3 scenario_3_blocks 4).
  - exact Hl.
  - simpl. tauto.
  - simpl; lia.
Defined.

Lemma allocate_fails_iff_witness :
  inv 16 scenario_3 scenario_3_blocks
  ∧ ((∃ st', allocate 16 4 scenario_3 98000 = Some (st', None))
     ↔ (98000 <= 0 ∨ MEMORY_SIZE < 98000 ∨ none_fits 98000 scenario_3_blocks))
  ∧ (∀ sz', 0 < 98000 <= sz' →
       (∃ st', allocate 16 4 scenario_3 98000 = Some (st', None)) →
       allocate 16 4 scenario_3 sz' = Some (scenario_3, None)).
Proof.
  assert (Hinv : inv 16 scenario_3 scenario_3_blocks).
  { split; [vm_compute; tauto|]. unfold covers, MEMORY_SIZE. simpl. lia. }
  split; [exact Hinv|].
  apply (allocate_fails_iff 16 ltac:(unfold MEMORY_SIZE; lia)
           scenario_3 scenario_3_blocks 98000 4).
  - exact Hinv.
  - simpl; lia.
Defined.

Lemma main_output_witness :
  4 * 16 + 128 + 1024 + 4096 < MEMORY_SIZE
  ∧ main 16 5
    = Some ([ "mem[0] allocated 128 bytes"; "mem[1] allocated 1024 bytes";
              "mem[2] allocated 4096 bytes"; "mem[1] deallocated";
              "mem[1] re-allocated 512 bytes";
              "Failed to allocate max memory (100000 bytes)" ], 0).
Proof.
  split; [unfold MEMORY_SIZE; lia|].
  apply (main_output 16); [unfold MEMORY_SIZE; lia|unfold MEMORY_SIZE; lia|lia].
Defined.
